(** * Locale synchronisation script ([translate.bun.ts])

    A shallow embedding of
    [src/components/frontend_react/src/scripts/translate.bun.ts] and the
    properties of its reconciliation pass.

    Modelling conventions.
    - A JavaScript string is the list of its UTF-16 code units.
    - A [Record<string, string>] is the list of its own properties in the
      order in which [Object.keys] enumerates them.  Its prototype is
      [Object.prototype], whose accessor [__proto__] takes the
      assignments to that name when the record has no own property of
      that name.
    - The file system, the console and the translation client are the
      environment.  Their effects are threaded through a state ([world])
      that also records every call in a chronological [trace].
    - A locale file is kept in parsed form: [JSON.stringify] followed by
      the JSON parser of [Bun.file(..).json()] is the identity on
      string-valued records.
    - The callbacks of the two [forEach] loops are asynchronous and
      nobody awaits them.  One pass, the callback of the inner loop, is
      modelled from its first step to its last; how the steps of several
      passes interleave, and the end of the process on a rejection that
      nobody handles, are not. *)

From Stdlib Require Import NArith.
From stdpp Require Import gmap strings list fin_maps.

#[local] Set Warnings "-clear-no-such-hyp".

(** ** JavaScript strings *)

Module JsString.

Abbreviation code_unit := N (only parsing).
Abbreviation jsstring := (list N) (only parsing).

(** A string literal of ASCII characters. *)
Definition lit (s : string) : jsstring :=
  List.map Ascii.N_of_ascii (String.list_ascii_of_string s).

Definition GT : code_unit := 62%N.

(** The character class [\s] of a regular expression without the [u]
    flag: WhiteSpace and LineTerminator code units. *)
Definition is_whitespace (c : code_unit) : bool :=
  ((9 <=? c) && (c <=? 13) || (c =? 32) || (c =? 160) || (c =? 5760)
   || (8192 <=? c) && (c <=? 8202) || (c =? 8232) || (c =? 8233)
   || (c =? 8239) || (c =? 8287) || (c =? 12288) || (c =? 65279))%N.

(** [translation.replaceAll(/\>\s/g, ">")] (line 143): the matcher scans
    from the left; at a [>] followed by a whitespace code unit it emits
    [>] and resumes after the two matched units, otherwise it copies one
    unit and moves on. *)
Fixpoint normalize (s : jsstring) : jsstring :=
  match s with
  | [] => []
  | c :: rest =>
      match rest with
      | w :: rest' =>
          if (c =? GT)%N && is_whitespace w
          then GT :: normalize rest'
          else c :: normalize rest
      | [] => [c]
      end
  end.

(** The value of [v || ""] for a property read [v] ([None] is
    [undefined]); the empty string is the only falsy string. *)
Definition falsy (v : option jsstring) : bool :=
  match v with
  | None | Some [] => true
  | Some (_ :: _) => false
  end.

Definition or_empty (v : option jsstring) : jsstring :=
  if falsy v then [] else default [] v.

End JsString.

Export JsString.

(** ** Records of phrases *)

Module JsObject.

Definition jsobject : Type := list (jsstring * jsstring).

(** [Object.keys(o)] *)
Definition keys (o : jsobject) : list jsstring := o.*1.

(** The own property [k] of [o]: the value of [o[k]] for an own key,
    [None] when [o] has no own property [k].  The script reads own keys
    only. *)
Fixpoint get (o : jsobject) (k : jsstring) : option jsstring :=
  match o with
  | [] => None
  | (k', v) :: rest => if decide (k' = k) then Some v else get rest k
  end.

(** [delete o[k]] *)
Definition delete_prop (o : jsobject) (k : jsstring) : jsobject :=
  List.filter (λ p, negb (bool_decide (p.1 = k))) o.

(** Array indices are the canonical decimal names of the integers below
    [2^32 - 1]; they are enumerated first, in ascending order. *)
Fixpoint digits (acc : N) (s : jsstring) : option N :=
  match s with
  | [] => Some acc
  | c :: rest =>
      if ((48 <=? c) && (c <=? 57))%N
      then digits (acc * 10 + (c - 48))%N rest
      else None
  end.

Definition array_index (k : jsstring) : option N :=
  match k with
  | [] => None
  | c :: rest =>
      if (c =? 48)%N && negb (bool_decide (rest = [])) then None
      else match digits 0%N k with
           | Some n => if (n <? 2 ^ 32 - 1)%N then Some n else None
           | None => None
           end
  end.

(** Does property [k'] come before a new property [k] in enumeration
    order?  Named properties keep creation order, so every existing
    property precedes a new named one. *)
Definition precedes (k' k : jsstring) : bool :=
  match array_index k, array_index k' with
  | Some n, Some n' => (n' <? n)%N
  | Some _, None => false
  | None, _ => true
  end.

(** Creation of a new own property. *)
Fixpoint define_prop (o : jsobject) (k v : jsstring) : jsobject :=
  match o with
  | [] => [(k, v)]
  | (k', v') :: rest =>
      if precedes k' k then (k', v') :: define_prop rest k v
      else (k, v) :: (k', v') :: rest
  end.

(** Assignment to an existing own property. *)
Fixpoint update_prop (o : jsobject) (k v : jsstring) : jsobject :=
  match o with
  | [] => []
  | (k', v') :: rest =>
      if decide (k' = k) then (k', v) :: rest
      else (k', v') :: update_prop rest k v
  end.

Definition PROTO : jsstring := lit "__proto__".

(** [o[k] = v] for a string [v].  An own property is updated.  Without
    one, the name [__proto__] reaches the setter of [Object.prototype],
    which ignores a value that is neither an object nor [null]: nothing
    is stored.  Every other name becomes a new own property. *)
Definition set_prop (o : jsobject) (k v : jsstring) : jsobject :=
  if decide (k ∈ keys o) then update_prop o k v
  else if decide (k = PROTO) then o
  else define_prop o k v.

End JsObject.

Export JsObject.

(** ** [difference] of ramda

    [difference(first, second)] walks [first] from the left and keeps an
    element when it is neither in [second] nor already kept. *)

Module Ramda.

Fixpoint difference_from (seen first : list jsstring) : list jsstring :=
  match first with
  | [] => []
  | x :: rest =>
      if decide (x ∈ seen) then difference_from seen rest
      else x :: difference_from (x :: seen) rest
  end.

Definition difference (first second : list jsstring) : list jsstring :=
  difference_from second first.

End Ramda.

Export Ramda.

(** ** The environment: file system, console, translation client *)

Module Env.

(** What a file holds: a JSON document that is a record of strings, the
    declared type of [readJSONFile], or text that is not JSON at all.
    Other JSON documents (an array, a number, nested values), which the
    parser returns without complaint, are outside the declared type and
    have no counterpart here. *)
Inductive content :=
| Json (o : jsobject)
| NotJson.

Inductive error :=
| ENOENT | EEXIST | EISDIR | EACCES
| SyntaxError.

(** [denied] lists the paths on which the storage layer refuses to
    create or to write (permissions, read-only medium). *)
Record filesystem := Filesystem {
  dirs : gset jsstring;
  files : gmap jsstring content;
  denied : gset jsstring;
}.

Inductive message :=
| LogDeleting (phrases : list jsstring)
| LogMissing (phrases : list jsstring)
| LogBatchesLeft (code : jsstring) (n : nat)
| LogTranslation (translation : jsstring)
| LogTarget (o : jsobject).

(** Calls to the translation client are numbered in the order in which
    they are issued; [Resolved] and [Rejected] mark the moment at which
    the [await] of call [id] resumes. *)
Inductive event :=
| FsStat (path : jsstring)
| FsMkdir (path : jsstring)
| FsWriteFile (path : jsstring) (c : content)
| BunFileJson (path : jsstring)
| BunWrite (path : jsstring) (c : content)
| Translate (id : nat) (text from to : jsstring)
| Resolved (id : nat) (translation : jsstring)
| Rejected (id : nat)
| ConsoleLog (m : message)
| ConsoleError (id : nat).

Record world := World {
  disk : filesystem;
  calls : nat;
  trace : list event;
}.

Inductive result (A : Type) :=
| Ok (a : A)
| Throw (e : error)
| OutOfFuel.
Arguments Ok {A} a.
Arguments Throw {A} e.
Arguments OutOfFuel {A}.

(** An effectful computation; a rejected promise keeps the effects that
    happened before the rejection. *)
Definition IO (A : Type) : Type := world → world * result A.

Definition ret {A} (a : A) : IO A := λ w, (w, Ok a).

Definition bind {A B} (m : IO A) (k : A → IO B) : IO B :=
  λ w, match m w with
       | (w', Ok a) => k a w'
       | (w', Throw e) => (w', Throw e)
       | (w', OutOfFuel) => (w', OutOfFuel)
       end.

(** [try { m } catch (_) { h }] *)
Definition try_catch {A} (m : IO A) (h : error → IO A) : IO A :=
  λ w, match m w with
       | (w', Throw e) => h e w'
       | r => r
       end.

Definition emit (e : event) : IO unit :=
  λ w, (World (disk w) (calls w) (trace w ++ [e]), Ok tt).

Definition throw {A} (e : error) : IO A := λ w, (w, Throw e).

(** The world after the events [evs] have been recorded. *)
Definition logged (evs : list event) (w : world) : world :=
  World (disk w) (calls w) (trace w ++ evs).

Definition get_disk : IO filesystem := λ w, (w, Ok (disk w)).

Definition put_disk (d : filesystem) : IO unit :=
  λ w, (World d (calls w) (trace w), Ok tt).

(** A fresh call number. *)
Definition next_call : IO nat :=
  λ w, (World (disk w) (S (calls w)) (trace w), Ok (calls w)).

Definition out_of_fuel {A} : IO A := λ w, (w, OutOfFuel).

Fixpoint mapIO {A B} (f : A → IO B) (l : list A) : IO (list B) :=
  match l with
  | [] => ret []
  | x :: rest =>
      bind (f x) (λ y, bind (mapIO f rest) (λ ys, ret (y :: ys)))
  end.

Fixpoint foldIO {A B} (f : A → B → IO A) (a : A) (l : list B) : IO A :=
  match l with
  | [] => ret a
  | x :: rest => bind (f a x) (λ a', foldIO f a' rest)
  end.

End Env.

Export Env.

Notation "x <- m ;; k" := (bind m (λ x, k))
  (at level 100, m at next level, right associativity,
   format "'[v' x  <-  m  ;; '/' k ']'").
Notation "m ;; k" := (bind m (λ _, k))
  (at level 100, right associativity, format "'[v' m  ;; '/' k ']'").

(** ** File-system primitives ([fs/promises] and [Bun]) *)

Module Fs.

(** The directory part of a path: what precedes its last [/]. *)
Fixpoint dirname (p : jsstring) : option jsstring :=
  match p with
  | [] => None
  | c :: rest =>
      match dirname rest with
      | Some d => Some (c :: d)
      | None => if (c =? 47)%N then Some [] else None
      end
  end.

Definition is_dir (d : filesystem) (p : jsstring) : bool :=
  bool_decide (p ∈ dirs d).

Definition is_file (d : filesystem) (p : jsstring) : bool :=
  bool_decide (is_Some (files d !! p)).

Definition exists_path (d : filesystem) (p : jsstring) : bool :=
  is_dir d p || is_file d p.

(** The working directory and the root always exist. *)
Definition parent_exists (d : filesystem) (p : jsstring) : bool :=
  match dirname p with
  | None | Some [] => true
  | Some parent => is_dir d parent
  end.

(** [fs.stat(path)] *)
Definition stat (p : jsstring) : IO unit :=
  emit (FsStat p) ;;
  d <- get_disk ;;
  if exists_path d p then ret tt else throw ENOENT.

(** [fs.mkdir(path)] *)
Definition mkdir (p : jsstring) : IO unit :=
  emit (FsMkdir p) ;;
  d <- get_disk ;;
  if exists_path d p then throw EEXIST
  else if negb (parent_exists d p) then throw ENOENT
  else if bool_decide (p ∈ denied d) then throw EACCES
  else put_disk (Filesystem ({[p]} ∪ dirs d) (files d) (denied d)).

(** Replacing or creating the file at [p]. *)
Definition store (p : jsstring) (c : content) : IO unit :=
  d <- get_disk ;;
  if is_dir d p then throw EISDIR
  else if negb (is_file d p || parent_exists d p) then throw ENOENT
  else if bool_decide (p ∈ denied d) then throw EACCES
  else put_disk (Filesystem (dirs d) (<[p := c]> (files d)) (denied d)).

(** [fs.writeFile(path, data)] *)
Definition writeFile (p : jsstring) (c : content) : IO unit :=
  emit (FsWriteFile p c) ;; store p c.

(** [Bun.write(path, data)]; its only call site overwrites a file that
    has just been read. *)
Definition Bun_write (p : jsstring) (c : content) : IO unit :=
  emit (BunWrite p c) ;; store p c.

(** [Bun.file(path).json()] *)
Definition Bun_file_json (p : jsstring) : IO jsobject :=
  emit (BunFileJson p) ;;
  d <- get_disk ;;
  match files d !! p with
  | Some (Json o) => ret o
  | Some NotJson => throw SyntaxError
  | None => throw (if is_dir d p then EISDIR else ENOENT)
  end.

Definition console_log (m : message) : IO unit := emit (ConsoleLog m).
Definition console_error (id : nat) : IO unit := emit (ConsoleError id).

End Fs.

Export Fs.

(** ** The runtime: translation service and event loop *)

Module Runtime.

(** A translation request that is in flight: the key on whose behalf it
    was issued, its call number and the answer the service will give
    ([None]: the promise is rejected). *)
Record pending := Pending {
  p_key : jsstring;
  p_id : nat;
  p_answer : option jsstring;
}.

(** [respond id text from to] is the answer of the translation service
    to call number [id]; [arrival] is the order in which the event loop
    resumes a group of requests that are awaited together. *)
Record runtime := {
  respond : nat → jsstring → jsstring → jsstring → option jsstring;
  arrival : list pending → list pending;
  arrival_perm : ∀ ps, arrival ps ≡ₚ ps;
}.

(** Requests are answered in the order of issue. *)
Definition fifo (respond : nat → jsstring → jsstring → jsstring → option jsstring)
  : runtime :=
  {| respond := respond; arrival := λ ps, ps;
     arrival_perm := λ ps, reflexivity ps |}.

(** The last request is answered first. *)
Definition lifo (respond : nat → jsstring → jsstring → jsstring → option jsstring)
  : runtime :=
  {| respond := respond; arrival := reverse;
     arrival_perm := reverse_Permutation |}.

End Runtime.

Export Runtime.

(** ** The script *)

Module Script.

Record language := Language {
  code : jsstring;
  name : jsstring;
  flag : jsstring;
}.

(** Lines 30-34. *)
Definition targetLanguages : list language :=
  [ Language (lit "en") (lit "English") [55356; 56826; 55356; 56824]%N;
    Language (lit "es") (lit "Espa" ++ [241%N] ++ lit "ol")
             [55356; 56818; 55356; 56829]%N;
    Language (lit "de") (lit "Deutsch") [55356; 56809; 55356; 56810]%N ].

Definition SOURCE_BASE : jsstring := lit "public/locales".
Definition ENGLISH_BASE : jsstring := SOURCE_BASE ++ lit "/en".
Definition TRANSLATION_BATCH_SIZE : nat := 100.

(** Line 91. *)
Definition sourceFiles : list jsstring :=
  [lit "translation.json"; lit "auth.json"].

(** Lines 70-71: [!!(await fs.stat(path).catch((_) => false))]. *)
Definition fileExists (path : jsstring) : IO bool :=
  try_catch (stat path ;; ret true) (λ _, ret false).

(** Lines 73-83. *)
Definition ensureLanguageFileExists (dir file : jsstring) : IO unit :=
  dir_exists <- fileExists dir ;;
  (if negb dir_exists
   then try_catch (mkdir dir) (λ _, ret tt)
   else ret tt) ;;
  file_exists <- fileExists file ;;
  if negb file_exists then writeFile file (Json []) else ret tt.

(** Lines 85-86. *)
Definition readJSONFile (path : jsstring) : IO jsobject := Bun_file_json path.

Section WithRuntime.

Context (rt : runtime).

(** Lines 132-138, up to the [await]: the part of [runTranslation] that
    runs when [map] calls it. *)
Definition runTranslation_call (sourcePhrases : jsobject) (to : jsstring)
    (key : jsstring) : IO pending :=
  let value := or_empty (get sourcePhrases key) in
  id <- next_call ;;
  emit (Translate id value (lit "en") to) ;;
  ret (Pending key id (respond rt id value (lit "en") to)).

(** Lines 138-146: the part of [runTranslation] that runs when the
    awaited call settles. *)
Definition runTranslation_resume (targetPhrases : jsobject) (p : pending)
  : IO jsobject :=
  match p_answer p with
  | Some translation =>
      emit (Resolved (p_id p) translation) ;;
      console_log (LogTranslation translation) ;;
      ret (set_prop targetPhrases (p_key p) (normalize translation))
  | None =>
      emit (Rejected (p_id p)) ;;
      console_error (p_id p) ;;
      ret targetPhrases
  end.

(** Lines 158-160: [await Promise.all(batch.map(runTranslation))]. *)
Definition run_batch (sourcePhrases : jsobject) (to : jsstring)
    (batch : list jsstring) (targetPhrases : jsobject) : IO jsobject :=
  ps <- mapIO (runTranslation_call sourcePhrases to) batch ;;
  foldIO runTranslation_resume targetPhrases (arrival rt ps).

(** Lines 151-161: the [while] loop.  [splice(0, n)] removes and returns
    the first [n] elements. *)
Fixpoint translation_loop (fuel : nat) (sourcePhrases : jsobject)
    (to : jsstring) (missingPhrases : list jsstring)
    (targetPhrases : jsobject) : IO jsobject :=
  match missingPhrases with
  | [] => ret targetPhrases
  | _ :: _ =>
      match fuel with
      | 0 => out_of_fuel
      | S fuel' =>
          console_log (LogBatchesLeft to
            (length missingPhrases / TRANSLATION_BATCH_SIZE + 1)) ;;
          targetPhrases' <-
            run_batch sourcePhrases to
              (take TRANSLATION_BATCH_SIZE missingPhrases) targetPhrases ;;
          translation_loop fuel' sourcePhrases to
            (drop TRANSLATION_BATCH_SIZE missingPhrases) targetPhrases'
      end
  end.

(** Lines 109-112. *)
Definition deletePhrases (sourcePhrases targetPhrases : jsobject)
  : list jsstring :=
  difference (keys targetPhrases) (keys sourcePhrases).

(** Lines 121-124; [targetPhrases] is the record as it is at that
    point, after the deletions. *)
Definition missingPhrases (sourcePhrases targetPhrases : jsobject)
  : list jsstring :=
  difference (keys sourcePhrases) (keys targetPhrases).

(** Lines 108-119: removal of the phrases that left the source.  The
    result is the value of [targetPhrases] afterwards. *)
Definition delete_removed (sourcePhrases : jsobject) (targetFile : jsstring)
    (targetPhrases : jsobject) : IO jsobject :=
  let deleted := deletePhrases sourcePhrases targetPhrases in
  if bool_decide (deleted ≠ [])
  then
    console_log (LogDeleting deleted) ;;
    let targetPhrases := foldl delete_prop targetPhrases deleted in
    Bun_write targetFile (Json targetPhrases) ;;
    ret targetPhrases
  else ret targetPhrases.

(** Lines 121-166: translation of the missing phrases.  The result is
    the final value of [targetPhrases]; the two writes of lines 165-166
    are commented out in the source. *)
Definition resolve_missing (sourcePhrases : jsobject) (to : jsstring)
    (targetPhrases : jsobject) : IO jsobject :=
  let missing := missingPhrases sourcePhrases targetPhrases in
  if bool_decide (missing = []) then ret targetPhrases
  else
    console_log (LogMissing missing) ;;
    targetPhrases <-
      translation_loop (length missing) sourcePhrases to missing
        targetPhrases ;;
    console_log (LogTarget targetPhrases) ;;
    ret targetPhrases.

Definition targetDir (l : language) : jsstring :=
  SOURCE_BASE ++ lit "/" ++ code l.

Definition targetFile (l : language) (sourceFile : jsstring) : jsstring :=
  targetDir l ++ lit "/" ++ sourceFile.

(** Lines 98-167: the callback of the inner [forEach], one
    reconciliation pass. *)
Definition pass (sourceFile : jsstring) (sourcePhrases : jsobject)
    (targetLanguage : language) : IO jsobject :=
  ensureLanguageFileExists (targetDir targetLanguage)
    (targetFile targetLanguage sourceFile) ;;
  targetPhrases <- readJSONFile (targetFile targetLanguage sourceFile) ;;
  targetPhrases <-
    delete_removed sourcePhrases (targetFile targetLanguage sourceFile)
      targetPhrases ;;
  resolve_missing sourcePhrases (code targetLanguage) targetPhrases.

(** Line 98: [targetLanguages.forEach(async (targetLanguage) => ..)].
    [forEach] calls the callback once for every element of the array,
    in order, and does not look at what a call returns.  This is the
    list of the passes that the loop starts, each with the descriptor it
    is started for. *)
Definition inner_loop (sourceFile : jsstring) (sourcePhrases : jsobject)
  : list (language * IO jsobject) :=
  List.map (λ targetLanguage,
              (targetLanguage, pass sourceFile sourcePhrases targetLanguage))
    targetLanguages.

End WithRuntime.

End Script.

Export Script.

(** ** The specification's reading of the normalisation *)

Module NormalizationSpec.

(** In the words of the specification: every whitespace unit that
    directly follows a right-angle bracket is dropped, everything else
    is kept.  [prev] is the unit before [s] in the original text. *)
Fixpoint collapse_after (prev : option code_unit) (s : jsstring) : jsstring :=
  match s with
  | [] => []
  | c :: rest =>
      if bool_decide (prev = Some GT) && is_whitespace c
      then collapse_after (Some c) rest
      else c :: collapse_after (Some c) rest
  end.

Definition collapse (s : jsstring) : jsstring := collapse_after None s.

(** Does [s] contain a right-angle bracket directly followed by a unit
    that satisfies [P]? *)
Fixpoint gt_followed_by (P : code_unit → bool) (s : jsstring) : bool :=
  match s with
  | [] => false
  | c :: rest =>
      match rest with
      | [] => false
      | w :: _ => (c =? GT)%N && P w || gt_followed_by P rest
      end
  end.

(** The sequence of the normalisation law: [>] and one space. *)
Definition contains_gt_space (s : jsstring) : bool :=
  gt_followed_by (λ w, (w =? 32)%N) s.

End NormalizationSpec.

Export NormalizationSpec.

(** ** The batcher, described by its batches

    These definitions say what the loop is expected to do, batch by
    batch; the properties below relate the loop to them. *)

Module BatcherSpec.

Section WithRuntime.

Context (rt : runtime) (sourcePhrases : jsobject) (to : jsstring).

(** The arguments of the call made for [key]. *)
Definition call_args (key : jsstring) : jsstring * jsstring * jsstring :=
  (or_empty (get sourcePhrases key), lit "en", to).

(** The requests of one batch, numbered from [id]. *)
Fixpoint issue (id : nat) (batch : list jsstring) : list pending :=
  match batch with
  | [] => []
  | key :: rest =>
      Pending key id
        (respond rt id (or_empty (get sourcePhrases key)) (lit "en") to)
      :: issue (S id) rest
  end.

Fixpoint call_events (id : nat) (batch : list jsstring) : list event :=
  match batch with
  | [] => []
  | key :: rest =>
      Translate id (or_empty (get sourcePhrases key)) (lit "en") to
      :: call_events (S id) rest
  end.

(** What one settled request does to the record and to the trace. *)
Definition settle1 (o : jsobject) (p : pending) : jsobject :=
  match p_answer p with
  | Some translation => set_prop o (p_key p) (normalize translation)
  | None => o
  end.

Definition settle (o : jsobject) (ps : list pending) : jsobject :=
  foldl settle1 o ps.

Definition settle_events1 (p : pending) : list event :=
  match p_answer p with
  | Some translation =>
      [Resolved (p_id p) translation; ConsoleLog (LogTranslation translation)]
  | None => [Rejected (p_id p); ConsoleError (p_id p)]
  end.

Definition settle_events (ps : list pending) : list event :=
  ps ≫= settle_events1.

(** One iteration per batch: the log line, then every call of the
    batch, then the settlements of these calls in the order of arrival. *)
Fixpoint batches_trace (id : nat) (bs : list (list jsstring)) : list event :=
  match bs with
  | [] => []
  | b :: rest =>
      ConsoleLog
        (LogBatchesLeft to (length (concat bs) / TRANSLATION_BATCH_SIZE + 1))
      :: call_events id b
      ++ settle_events (arrival rt (issue id b))
      ++ batches_trace (id + length b) rest
  end.

(** The requests of all batches, in the order in which they settle. *)
Fixpoint arrivals (id : nat) (bs : list (list jsstring)) : list pending :=
  match bs with
  | [] => []
  | b :: rest => arrival rt (issue id b) ++ arrivals (id + length b) rest
  end.

End WithRuntime.

(** Consecutive slices of [TRANSLATION_BATCH_SIZE] elements. *)
Fixpoint chunks (fuel : nat) (l : list jsstring) : list (list jsstring) :=
  match l, fuel with
  | [], _ | _, 0 => []
  | _ :: _, S fuel' =>
      take TRANSLATION_BATCH_SIZE l
      :: chunks fuel' (drop TRANSLATION_BATCH_SIZE l)
  end.

Definition batches (l : list jsstring) : list (list jsstring) :=
  chunks (length l) l.

(** The calls to the translation client recorded in a trace. *)
Definition translate_call (e : event)
  : option (jsstring * jsstring * jsstring) :=
  match e with
  | Translate _ text from to => Some (text, from, to)
  | _ => None
  end.

Definition translate_calls (tr : list event)
  : list (jsstring * jsstring * jsstring) :=
  omap translate_call tr.

End BatcherSpec.

Export BatcherSpec.

(** ** A sample run

    The scenario of the specification: the source holds [hello] and
    [bye], the Spanish file holds [hello] and a stale [old]. *)

Module Scenario.

Definition source : jsobject :=
  [(lit "hello", lit "Hello"); (lit "bye", lit "Bye")].

Definition spanish : jsobject :=
  [(lit "hello", lit "Hola"); (lit "old", lit "Viejo")].

Definition es : language :=
  Language (lit "es") (lit "Espa" ++ [241%N] ++ lit "ol")
    [55356; 56818; 55356; 56829]%N.

Definition en : language :=
  Language (lit "en") (lit "English") [55356; 56826; 55356; 56824]%N.

Definition tree : filesystem :=
  Filesystem
    {[ lit "public"; lit "public/locales"; lit "public/locales/en";
       lit "public/locales/es" ]}
    {[ lit "public/locales/en/translation.json" := Json source;
       lit "public/locales/es/translation.json" := Json spanish ]}
    ∅.

Definition start : world := World tree 0 [].

(** A service that wraps every text in a tag, with the stray space that
    line 142 mentions. *)
Definition tagging : runtime :=
  fifo (λ _ text _ _, Some (lit "<i> " ++ text ++ lit "</i>")).



End Scenario.

(** ** Reading a trace *)

Module TraceSpec.

(** The number of the call that an event issues, or settles. *)
Definition issued_id (e : event) : option nat :=
  match e with
  | Translate id _ _ _ => Some id
  | _ => None
  end.

Definition settled_id (e : event) : option nat :=
  match e with
  | Resolved id _ | Rejected id => Some id
  | _ => None
  end.

Definition issued_ids (tr : list event) : list nat := omap issued_id tr.
Definition settled_ids (tr : list event) : list nat := omap settled_id tr.

(** The calls that are issued in [tr] and have not settled in [tr]. *)
Definition outstanding (tr : list event) : list nat :=
  List.filter (λ id, bool_decide (id ∉ settled_ids tr)) (issued_ids tr).

(** At every moment of [tr], every call that has settled has been
    issued before, and the calls that are issued and not yet settled
    are at most [n]. *)
Definition outstanding_at_most (n : nat) (tr : list event) : Prop :=
  ∀ m,
    (∀ id, id ∈ settled_ids (take m tr) → id ∈ issued_ids (take m tr)) ∧
    length (outstanding (take m tr)) ≤ n.

(** Events that change the file system. *)
Definition is_fs_change (e : event) : bool :=
  match e with
  | FsMkdir _ | FsWriteFile _ _ | BunWrite _ _ => true
  | _ => false
  end.

(** [w'] differs from [w] on disk at most in the file [file] and in the
    directory [dir]: permissions are the same, no directory is gone and
    the only directory that may be new is [dir], every other file is as
    it was, and [file] is not removed. *)
Definition only_touches (dir file : jsstring) (w w' : world) : Prop :=
  denied (disk w') = denied (disk w) ∧
  dirs (disk w) ⊆ dirs (disk w') ∧
  dirs (disk w') ⊆ {[dir]} ∪ dirs (disk w) ∧
  (∀ p, p ≠ file → files (disk w') !! p = files (disk w) !! p) ∧
  (is_Some (files (disk w) !! file) → is_Some (files (disk w') !! file)).

End TraceSpec.

Export TraceSpec.

(** * Properties *)

(** ** Normalisation *)

Lemma list_pair_ind {A} (P : list A → Prop) :
  P [] → (∀ x, P [x]) → (∀ x y l, P l → P (y :: l) → P (x :: y :: l)) →
  ∀ l, P l.
Proof.
  intros Hnil Hone Hstep l.
  cut (P l ∧ ∀ x, P (x :: l)); [tauto |].
  induction l as [|y l [IH1 IH2]]; split; auto.
Qed.

Lemma normalize_cons2 c w s :
  normalize (c :: w :: s) =
  if (c =? GT)%N && is_whitespace w then GT :: normalize s
  else c :: normalize (w :: s).
Proof. reflexivity. Qed.

Lemma collapse_after_cons p c s :
  collapse_after p (c :: s) =
  if bool_decide (p = Some GT) && is_whitespace c
  then collapse_after (Some c) s else c :: collapse_after (Some c) s.
Proof. reflexivity. Qed.

Lemma collapse_after_other p s :
  p ≠ Some GT → collapse_after p s = collapse s.
Proof.
  intros Hp. destruct s as [|c s]; [done |]. unfold collapse.
  rewrite !collapse_after_cons. by rewrite bool_decide_eq_false_2.
Qed.

Lemma normalize_collapse s : normalize s = collapse s.
Proof.
  induction s as [|c|c w s IH1 IH2] using list_pair_ind; [done.. |].
  rewrite normalize_cons2. unfold collapse.
  rewrite (collapse_after_cons None), (collapse_after_cons (Some c)).
  rewrite (bool_decide_eq_false_2 (None = Some GT)) by done. cbn [andb].
  destruct (c =? GT)%N eqn:Hc.
  - apply N.eqb_eq in Hc as ->. rewrite bool_decide_eq_true_2 by done.
    cbn [andb]. destruct (is_whitespace w) eqn:Hw.
    + f_equal. rewrite IH1. symmetry. apply collapse_after_other.
      intros [= ->]. discriminate Hw.
    + f_equal. rewrite IH2. unfold collapse. rewrite collapse_after_cons.
      by rewrite bool_decide_eq_false_2.
  - cbn [andb]. f_equal. apply N.eqb_neq in Hc.
    rewrite bool_decide_eq_false_2 by congruence. cbn [andb].
    rewrite IH2. unfold collapse. rewrite collapse_after_cons.
    by rewrite bool_decide_eq_false_2.
Qed.

Lemma normalize_fixed s :
  gt_followed_by is_whitespace s = false → normalize s = s.
Proof.
  induction s as [|c|c w s IH1 IH2] using list_pair_ind; [done.. |].
  rewrite normalize_cons2. cbn [gt_followed_by].
  intros [H1 H2]%orb_false_iff. rewrite H1. f_equal. by apply IH2.
Qed.

(** C3 (as written, second half): a value without the sequence [> ] is
    not always stored unchanged.  The value [>], TAB, [x] has no [>]
    followed by a space, and it is stored as [>x]. *)
Lemma C3_tab_counterexample :
  ¬ (∀ s, contains_gt_space s = false → normalize s = s).
Proof. intros H. by specialize (H [62; 9; 120]%N eq_refl). Qed.

(** C3 (amended): the stored text is the translated text in which every
    whitespace unit directly after a [>] is dropped, and a text in which
    no [>] is directly followed by a whitespace unit is stored
    unchanged. *)
Theorem C3_normalization (s : jsstring) :
  normalize s = collapse s ∧
  (gt_followed_by is_whitespace s = false → normalize s = s).
Proof. split; [apply normalize_collapse | apply normalize_fixed]. Qed.

Lemma C3_normalization_witness :
  gt_followed_by is_whitespace (lit "<b>Hola</b>") = false ∧
  normalize (lit "<b>Hola</b>") = lit "<b>Hola</b>".
Proof.
  split; [reflexivity |].
  apply (C3_normalization (lit "<b>Hola</b>")). reflexivity.
Defined.

(** ** The diff *)

Section Difference.

Implicit Types (x k : jsstring) (seen first second : list jsstring).

Lemma elem_of_difference_from seen first x :
  x ∈ difference_from seen first ↔ x ∈ first ∧ x ∉ seen.
Proof.
  revert seen. induction first as [|y first IH]; intros seen; cbn.
  - set_solver.
  - case_decide as Hy.
    + rewrite IH. set_solver.
    + rewrite elem_of_cons, IH. destruct (decide (x = y)); set_solver.
Qed.

Lemma elem_of_difference first second x :
  x ∈ difference first second ↔ x ∈ first ∧ x ∉ second.
Proof. apply elem_of_difference_from. Qed.

Lemma NoDup_difference_from seen first : NoDup (difference_from seen first).
Proof.
  revert seen. induction first as [|y first IH]; intros seen; cbn.
  - constructor.
  - case_decide; [apply IH |]. constructor; [| apply IH].
    rewrite elem_of_difference_from. set_solver.
Qed.

Lemma NoDup_difference first second : NoDup (difference first second).
Proof. apply NoDup_difference_from. Qed.

(** Only membership in the second list matters. *)
Lemma difference_from_ext seen seen' first :
  (∀ x, x ∈ first → (x ∈ seen ↔ x ∈ seen')) →
  difference_from seen first = difference_from seen' first.
Proof.
  revert seen seen'. induction first as [|y first IH]; intros seen seen' H.
  - done.
  - cbn. pose proof (H y (list_elem_of_here _ _)) as Hy.
    repeat case_decide; try tauto.
    + apply IH. intros x Hx. apply H. by right.
    + f_equal. apply IH. intros x Hx.
      rewrite !elem_of_cons. rewrite (H x) by (by right). done.
Qed.

Lemma difference_nil_iff first second :
  difference first second = [] ↔ ∀ x, x ∈ first → x ∈ second.
Proof.
  split.
  - intros H x Hx. destruct (decide (x ∈ second)) as [|Hn]; [done |].
    assert (x ∈ difference first second) as Hd
      by (apply elem_of_difference; split; done).
    rewrite H in Hd. by apply elem_of_nil in Hd.
  - intros H. destruct (difference first second) as [|x l] eqn:E; [done |].
    assert (x ∈ difference first second) as Hd by (rewrite E; left).
    apply elem_of_difference in Hd as [Hx Hn]. destruct (Hn (H x Hx)).
Qed.

Lemma difference_self l : difference l l = [].
Proof. by apply difference_nil_iff. Qed.

End Difference.

(** ** Records *)

Section Objects.

Implicit Types (o : jsobject) (k v : jsstring).

Lemma get_None o k : get o k = None ↔ k ∉ keys o.
Proof.
  induction o as [|[k' v'] o IH]; cbn.
  - split; [intros _; apply not_elem_of_nil | done].
  - case_decide as Hk; [subst; set_solver |].
    rewrite IH. set_solver.
Qed.

Lemma get_is_Some o k : is_Some (get o k) ↔ k ∈ keys o.
Proof.
  rewrite <- not_eq_None_Some, get_None.
  destruct (decide (k ∈ keys o)); tauto.
Qed.

Lemma delete_prop_cons k0 v0 o k :
  delete_prop ((k0, v0) :: o) k =
  if decide (k0 = k) then delete_prop o k else (k0, v0) :: delete_prop o k.
Proof.
  unfold delete_prop. cbn. by destruct (decide (k0 = k)) as [-> | Hne];
    [rewrite bool_decide_eq_true_2 | rewrite bool_decide_eq_false_2].
Qed.

Lemma get_delete_prop o k k' :
  get (delete_prop o k) k' = if decide (k' = k) then None else get o k'.
Proof.
  induction o as [|[k0 v0] o IH].
  - cbn. by case_decide.
  - rewrite delete_prop_cons. destruct (decide (k0 = k)) as [-> | Hne].
    + rewrite IH. cbn. repeat case_decide; congruence.
    + cbn. rewrite IH. repeat case_decide; congruence.
Qed.

Lemma get_foldl_delete_prop o ds k :
  get (foldl delete_prop o ds) k = if decide (k ∈ ds) then None else get o k.
Proof.
  revert o. induction ds as [|d ds IH]; intros o; cbn.
  - case_decide as H; [by apply elem_of_nil in H | done].
  - rewrite IH, get_delete_prop.
    repeat case_decide; set_solver.
Qed.

Lemma elem_of_keys_foldl_delete_prop o ds k :
  k ∈ keys (foldl delete_prop o ds) ↔ k ∈ keys o ∧ k ∉ ds.
Proof.
  rewrite <- !get_is_Some, get_foldl_delete_prop.
  case_decide; [| tauto].
  split; [by intros [? ?] | tauto].
Qed.

Lemma get_update_prop o k v k' :
  k ∈ keys o →
  get (update_prop o k v) k' = if decide (k' = k) then Some v else get o k'.
Proof.
  induction o as [|[k0 v0] o IH]; cbn; intros Hk.
  - by apply elem_of_nil in Hk.
  - destruct (decide (k0 = k)) as [-> | Hne]; cbn.
    + repeat case_decide; congruence.
    + rewrite IH by set_solver. repeat case_decide; congruence.
Qed.

Lemma get_define_prop o k v k' :
  k ∉ keys o →
  get (define_prop o k v) k' = if decide (k' = k) then Some v else get o k'.
Proof.
  induction o as [|[k0 v0] o IH]; cbn; intros Hk.
  - repeat case_decide; congruence.
  - assert (k0 ≠ k) by set_solver.
    destruct (precedes k0 k); cbn.
    + rewrite IH by set_solver. repeat case_decide; congruence.
    + repeat case_decide; congruence.
Qed.

(** Reading after [o[k] = v]. *)
Lemma get_set_prop o k v k' :
  get (set_prop o k v) k' =
  if decide (k' = k ∧ (k ∈ keys o ∨ k ≠ PROTO)) then Some v else get o k'.
Proof.
  unfold set_prop. destruct (decide (k ∈ keys o)) as [Hin | Hin].
  - rewrite get_update_prop by done. apply decide_ext. tauto.
  - destruct (decide (k = PROTO)) as [Hp | Hp].
    + rewrite decide_False; [done | tauto].
    + rewrite get_define_prop by done. apply decide_ext. tauto.
Qed.

End Objects.

Lemma elem_of_missingPhrases_after_deletion
    (sourcePhrases targetPhrases : jsobject) (k : jsstring) :
  k ∈ missingPhrases sourcePhrases
        (foldl delete_prop targetPhrases
           (deletePhrases sourcePhrases targetPhrases))
  ↔ k ∈ keys sourcePhrases ∧ k ∉ keys targetPhrases.
Proof.
  unfold deletePhrases, missingPhrases.
  rewrite elem_of_difference, elem_of_keys_foldl_delete_prop,
    elem_of_difference.
  tauto.
Qed.

(** C6: the deletion list holds exactly the keys of the target that the
    source lacks, and the list of missing phrases, computed on the
    target after the deletions, holds exactly the keys of the source
    that the target as read lacks.  No key is listed twice. *)
Theorem C6_difference_sets (sourcePhrases targetPhrases : jsobject) :
  let deleted := deletePhrases sourcePhrases targetPhrases in
  let missing :=
    missingPhrases sourcePhrases (foldl delete_prop targetPhrases deleted) in
  (∀ k, k ∈ deleted ↔ k ∈ keys targetPhrases ∧ k ∉ keys sourcePhrases) ∧
  (∀ k, k ∈ missing ↔ k ∈ keys sourcePhrases ∧ k ∉ keys targetPhrases) ∧
  NoDup deleted ∧ NoDup missing.
Proof.
  cbn zeta. unfold deletePhrases, missingPhrases.
  split_and!; [| | apply NoDup_difference..].
  - intros k. apply elem_of_difference.
  - apply elem_of_missingPhrases_after_deletion.
Qed.

(** ** Running the primitives *)

Section Primitives.

Implicit Types (w : world) (p dir file : jsstring).

Lemma logged_nil w : logged [] w = w.
Proof. destruct w. unfold logged. cbn. by rewrite app_nil_r. Qed.

Lemma logged_logged evs evs' w :
  logged evs' (logged evs w) = logged (evs ++ evs') w.
Proof. unfold logged. cbn. by rewrite app_assoc. Qed.

Lemma emit_run e w : emit e w = (logged [e] w, Ok tt).
Proof. reflexivity. Qed.

Lemma fileExists_run p w :
  fileExists p w = (logged [FsStat p] w, Ok (exists_path (disk w) p)).
Proof.
  unfold fileExists, try_catch, stat, bind, emit, get_disk, ret, throw.
  cbn. by destruct (exists_path (disk w) p).
Qed.

(** A failed primitive leaves the disk as it was. *)
Lemma store_run p c w :
  store p c w =
  if is_dir (disk w) p then (w, Throw EISDIR)
  else if negb (is_file (disk w) p || parent_exists (disk w) p)
    then (w, Throw ENOENT)
  else if bool_decide (p ∈ denied (disk w)) then (w, Throw EACCES)
  else (World (Filesystem (dirs (disk w)) (<[p := c]> (files (disk w)))
                 (denied (disk w))) (calls w) (trace w), Ok tt).
Proof.
  unfold store, bind, get_disk, put_disk, throw. cbn.
  by repeat (case_match; try done).
Qed.

Lemma store_Throw_disk p c w e :
  (store p c w).2 = Throw e → (store p c w).1 = w.
Proof. rewrite store_run. by repeat (case_match; try done). Qed.

Lemma store_result_disk p c w w' :
  disk w = disk w' → (store p c w).2 = (store p c w').2.
Proof. intros E. rewrite !store_run, E. by repeat (case_match; try done). Qed.

Lemma mkdir_trace p w :
  trace (mkdir p w).1 = trace w ++ [FsMkdir p] ∧
  calls (mkdir p w).1 = calls w ∧
  files (disk (mkdir p w).1) = files (disk w).
Proof.
  unfold mkdir, bind, emit, get_disk, put_disk, throw. cbn.
  by repeat (case_match; try done).
Qed.

(** Lines 73-83, step by step. *)
Lemma ensureLanguageFileExists_run dir file w :
  ensureLanguageFileExists dir file w =
  let w1 := logged [FsStat dir] w in
  let w2 := if exists_path (disk w) dir then w1 else (mkdir dir w1).1 in
  let w3 := logged [FsStat file] w2 in
  if exists_path (disk w2) file then (w3, Ok tt)
  else writeFile file (Json []) w3.
Proof.
  unfold ensureLanguageFileExists. unfold bind at 1.
  rewrite fileExists_run. cbn zeta.
  destruct (exists_path (disk w) dir) eqn:Hdir; cbn [negb].
  - unfold bind at 1. unfold ret at 1. unfold bind at 1.
    rewrite fileExists_run.
    by destruct (exists_path _ file).
  - unfold bind at 1. unfold try_catch.
    destruct (mkdir dir (logged [FsStat dir] w)) as [w2 [[]|e|]] eqn:Hmk;
      cbn [fst]; try unfold ret at 1.
    + unfold bind at 1. rewrite fileExists_run.
      by destruct (exists_path _ file).
    + unfold bind at 1. rewrite fileExists_run.
      by destruct (exists_path _ file).
    + exfalso. revert Hmk.
      unfold mkdir, bind, emit, get_disk, put_disk, throw. cbn.
      by repeat (case_match; try done).
Qed.

End Primitives.

(** ** The ensure operation *)

(** C9 (as written): the ensure operation does propagate an error.  In
    an empty working directory the creation of [public/locales/es] fails
    (no parent) and is swallowed, then the creation of the file fails
    for the same reason and the failure reaches the caller. *)
Lemma C9_write_failure_counterexample :
  ¬ (∀ dir file w e, (ensureLanguageFileExists dir file w).2 ≠ Throw e).
Proof.
  intros H.
  apply (H (lit "public/locales/es") (lit "public/locales/es/translation.json")
           (World (Filesystem ∅ ∅ ∅) 0 []) ENOENT).
  vm_compute. reflexivity.
Qed.

(** C9 (amended): a failure of the directory creation is swallowed, a
    failure of the creation of the initial file is not.  When [mkdir]
    fails and the file exists, the operation returns normally; and the
    operation throws [e] exactly when, in the state it leaves, the file
    does not exist and writing it fails with [e]. *)
Theorem C9_ensure_failures (dir file : jsstring) (w : world) :
  let r := ensureLanguageFileExists dir file w in
  (∀ e, (mkdir dir (logged [FsStat dir] w)).2 = Throw e →
        exists_path (disk w) file = true → r.2 = Ok tt) ∧
  (∀ e, r.2 = Throw e ↔
        exists_path (disk r.1) file = false ∧
        (store file (Json []) r.1).2 = Throw e).
Proof.
  cbn zeta. rewrite ensureLanguageFileExists_run. cbn zeta.
  set (w1 := logged [FsStat dir] w).
  set (w2 := if exists_path (disk w) dir then w1 else (mkdir dir w1).1).
  split.
  - intros e Hmk Hfile.
    assert (disk w2 = disk w) as ->; [| by rewrite Hfile].
    subst w2. destruct (exists_path (disk w) dir); [done |].
    revert Hmk. subst w1.
    unfold mkdir, bind, emit, get_disk, put_disk, throw. cbn.
    by repeat (case_match; try done).
  - intros e. destruct (exists_path (disk w2) file) eqn:Hfile.
    + cbn. rewrite Hfile. split; [done | by intros [? _]].
    + unfold writeFile, bind. rewrite emit_run.
      set (w3 := logged _ (logged _ w2)).
      assert (disk w3 = disk w2) as Hd by done.
      destruct (store file (Json []) w3) as [w4 r] eqn:Hst. split.
      * intros Hr. destruct r as [[]|e'|]; try done. cbn in Hr.
        injection Hr as ->.
        assert (w4 = w3) as ->.
        { change w4 with (w4, @Throw unit e).1. rewrite <- Hst.
          apply store_Throw_disk with e. by rewrite Hst. }
        cbn [fst]. rewrite Hd, Hfile. split; [done |]. by rewrite Hst.
      * cbn [fst snd]. intros [Hno Hthrow].
        destruct r as [[]|e'|].
        -- exfalso. revert Hst Hno. rewrite store_run.
           repeat (case_match; try done). intros [= <-]. cbn.
           unfold exists_path, is_file. cbn.
           rewrite lookup_insert_eq.
           rewrite (bool_decide_eq_true_2 (is_Some (Some _))) by eauto.
           by rewrite orb_true_r.
        -- assert (w4 = w3) as ->.
           { change w4 with (w4, @Throw unit e').1. rewrite <- Hst.
             apply store_Throw_disk with e'. by rewrite Hst. }
           by rewrite Hst in Hthrow.
        -- exfalso. revert Hst. rewrite store_run.
           by repeat (case_match; try done).
Qed.

Lemma C9_ensure_failures_witness :
  (ensureLanguageFileExists (lit "es") (lit "es.json")
     (World (Filesystem ∅ {[lit "es.json" := Json []]} {[lit "es"]}) 0 [])).2
  = Ok tt.
Proof.
  apply (C9_ensure_failures (lit "es") (lit "es.json")
           (World (Filesystem ∅ {[lit "es.json" := Json []]} {[lit "es"]}) 0 [])
        ) with EACCES; vm_compute; reflexivity.
Defined.

(** ** Batches *)

Lemma batch_size_pos : 0 < TRANSLATION_BATCH_SIZE.
Proof. unfold TRANSLATION_BATCH_SIZE. lia. Qed.

Lemma batch_size_default : TRANSLATION_BATCH_SIZE = 100.
Proof. reflexivity. Qed.

#[local] Opaque TRANSLATION_BATCH_SIZE lit.

Section Batches.

Implicit Types (l batch : list jsstring) (fuel : nat).

Lemma chunks_fuel fuel fuel' l :
  length l ≤ fuel → length l ≤ fuel' → chunks fuel l = chunks fuel' l.
Proof.
  revert fuel' l. induction fuel as [|fuel IH]; intros fuel' l H H'.
  - destruct l; [by destruct fuel' | cbn in H; lia].
  - destruct l as [|x l]; [by destruct fuel' |].
    destruct fuel' as [|fuel']; [cbn in H'; lia |].
    cbn [chunks]. f_equal.
    pose proof batch_size_pos.
    apply IH; rewrite length_drop; cbn [length] in *; lia.
Qed.

Lemma batches_nil : batches [] = [].
Proof. reflexivity. Qed.

Lemma batches_cons l :
  l ≠ [] →
  batches l =
  take TRANSLATION_BATCH_SIZE l :: batches (drop TRANSLATION_BATCH_SIZE l).
Proof.
  intros Hl. destruct l as [|x l]; [done |].
  unfold batches. cbn [length chunks]. f_equal.
  pose proof batch_size_pos.
  apply chunks_fuel; rewrite length_drop; cbn [length]; lia.
Qed.

(** Induction along the loop: the list of this iteration, then the list
    that [splice] leaves. *)
Lemma splice_ind (P : list jsstring → Prop) :
  P [] →
  (∀ l, l ≠ [] → P (drop TRANSLATION_BATCH_SIZE l) → P l) →
  ∀ l, P l.
Proof.
  intros Hnil Hstep l.
  remember (length l) as n eqn:Hn. revert l Hn.
  induction (lt_wf n) as [n _ IH]. intros l ->.
  destruct l as [|x l]; [done |].
  apply Hstep; [done |]. eapply IH; [| reflexivity].
  pose proof batch_size_pos. rewrite length_drop. cbn [length]. lia.
Qed.

Lemma concat_batches l : concat (batches l) = l.
Proof.
  induction l as [|l Hl IH] using splice_ind; [done |].
  rewrite batches_cons by done. cbn [concat].
  rewrite IH. apply take_drop.
Qed.

Lemma batches_sizes l :
  Forall (λ b, 0 < length b ≤ TRANSLATION_BATCH_SIZE) (batches l).
Proof.
  induction l as [|l Hl IH] using splice_ind; [constructor |].
  rewrite batches_cons by done. constructor; [| done].
  pose proof batch_size_pos. rewrite length_take.
  destruct l; [done |]. cbn [length]. lia.
Qed.

(** All batches but the last are full. *)
Lemma batches_full l i b :
  batches l !! i = Some b → S i < length (batches l) →
  length b = TRANSLATION_BATCH_SIZE.
Proof.
  revert i. induction l as [|l Hl IH] using splice_ind; intros i; [done |].
  rewrite batches_cons by done. destruct i as [|i]; cbn.
  - intros [= <-] Hlen. rewrite length_take.
    destruct (decide (TRANSLATION_BATCH_SIZE ≤ length l)); [lia |].
    rewrite drop_ge in Hlen by lia. cbn in Hlen. lia.
  - intros Hb Hlen. apply (IH i); [done | lia].
Qed.

Lemma length_batches l :
  length (batches l) =
  (length l + (TRANSLATION_BATCH_SIZE - 1)) / TRANSLATION_BATCH_SIZE.
Proof.
  pose proof batch_size_pos as Hpos.
  induction l as [|l Hl IH] using splice_ind.
  - cbn. symmetry. apply Nat.div_small. lia.
  - rewrite batches_cons by done. cbn [length]. rewrite IH, length_drop.
    assert (0 < length l) by (destruct l; [done | cbn; lia]).
    destruct (decide (length l ≤ TRANSLATION_BATCH_SIZE)) as [Hle | Hgt].
    + replace (length l - TRANSLATION_BATCH_SIZE) with 0 by lia.
      rewrite (Nat.div_small (0 + _)) by lia.
      apply (Nat.div_unique _ _ _ (length l - 1)); lia.
    + replace (length l + (TRANSLATION_BATCH_SIZE - 1)) with
        ((length l - TRANSLATION_BATCH_SIZE + (TRANSLATION_BATCH_SIZE - 1))
         + 1 * TRANSLATION_BATCH_SIZE) by lia.
      rewrite Nat.div_add by lia. lia.
Qed.

End Batches.

(** ** Running the batcher *)

Section Batcher.

Context (rt : runtime) (sourcePhrases : jsobject) (to : jsstring).

Implicit Types (w : world) (o : jsobject) (l batch : list jsstring)
  (ps : list pending).

Lemma runTranslation_call_run key w :
  runTranslation_call rt sourcePhrases to key w =
  (World (disk w) (S (calls w))
     (trace w
      ++ [Translate (calls w) (or_empty (get sourcePhrases key)) (lit "en") to]),
   Ok (Pending key (calls w)
         (respond rt (calls w) (or_empty (get sourcePhrases key))
            (lit "en") to))).
Proof. reflexivity. Qed.

Lemma mapIO_runTranslation_call batch w :
  mapIO (runTranslation_call rt sourcePhrases to) batch w =
  (World (disk w) (calls w + length batch)
     (trace w ++ call_events sourcePhrases to (calls w) batch),
   Ok (issue rt sourcePhrases to (calls w) batch)).
Proof.
  revert w. induction batch as [|key batch IH]; intros w.
  - cbn. destruct w. cbn. by rewrite Nat.add_0_r, app_nil_r.
  - cbn [mapIO]. unfold bind. rewrite runTranslation_call_run, IH.
    unfold ret. cbn [disk calls trace call_events issue length].
    rewrite <- app_assoc. do 2 f_equal. lia.
Qed.

Lemma runTranslation_resume_run o p w :
  runTranslation_resume o p w = (logged (settle_events1 p) w, Ok (settle1 o p)).
Proof.
  unfold runTranslation_resume, settle_events1, settle1.
  destruct (p_answer p); unfold bind, emit, console_log, console_error, emit,
    ret, logged; cbn; by rewrite <- app_assoc.
Qed.

Lemma foldIO_runTranslation_resume o ps w :
  foldIO runTranslation_resume o ps w =
  (logged (settle_events ps) w, Ok (settle o ps)).
Proof.
  revert o w. induction ps as [|p ps IH]; intros o w.
  - cbn. by rewrite logged_nil.
  - cbn [foldIO]. unfold bind. rewrite runTranslation_resume_run, IH.
    by rewrite logged_logged.
Qed.

Lemma run_batch_run batch o w :
  run_batch rt sourcePhrases to batch o w =
  (World (disk w) (calls w + length batch)
     (trace w ++ call_events sourcePhrases to (calls w) batch
      ++ settle_events (arrival rt (issue rt sourcePhrases to (calls w) batch))),
   Ok (settle o (arrival rt (issue rt sourcePhrases to (calls w) batch)))).
Proof.
  unfold run_batch, bind.
  rewrite mapIO_runTranslation_call, foldIO_runTranslation_resume.
  unfold logged. cbn. by rewrite <- app_assoc.
Qed.

Lemma settle_app o ps ps' : settle o (ps ++ ps') = settle (settle o ps) ps'.
Proof. apply foldl_app. Qed.

(** With fuel for every batch the loop returns. *)
Lemma translation_loop_run fuel l o w :
  length (batches l) ≤ fuel →
  translation_loop rt fuel sourcePhrases to l o w =
  (World (disk w) (calls w + length l)
     (trace w ++ batches_trace rt sourcePhrases to (calls w) (batches l)),
   Ok (settle o (arrivals rt sourcePhrases to (calls w) (batches l)))).
Proof.
  revert l o w. induction fuel as [|fuel IH]; intros l o w Hfuel.
  - destruct l as [|x l].
    + cbn. destruct w. cbn. by rewrite Nat.add_0_r, app_nil_r.
    + rewrite batches_cons in Hfuel by done. cbn in Hfuel. lia.
  - destruct l as [|x l].
    + cbn. destruct w. cbn. by rewrite Nat.add_0_r, app_nil_r.
    + remember (x :: l) as l0 eqn:El.
      assert (l0 ≠ []) as Hne by (by subst).
      rewrite batches_cons in * by done. cbn [length] in Hfuel.
      rewrite El at 1. cbn [translation_loop]. rewrite <- El.
      unfold bind at 1, console_log. rewrite emit_run.
      unfold bind at 1. rewrite run_batch_run.
      rewrite IH by lia. cbn [disk calls trace logged].
      cbn [batches_trace arrivals]. rewrite settle_app.
      rewrite <- batches_cons by done. rewrite concat_batches.
      f_equal. f_equal.
      * rewrite <- Nat.add_assoc, <- length_app. by rewrite take_drop.
      * by rewrite <- !app_assoc.
Qed.

(** Every iteration uses up one unit of fuel. *)
Lemma translation_loop_short fuel l o w :
  fuel < length (batches l) →
  (translation_loop rt fuel sourcePhrases to l o w).2 = OutOfFuel.
Proof.
  revert l o w. induction fuel as [|fuel IH]; intros l o w Hfuel.
  - destruct l as [|x l]; [cbn in Hfuel; lia | done].
  - destruct l as [|x l]; [cbn in Hfuel; lia |].
    remember (x :: l) as l0 eqn:El.
    assert (l0 ≠ []) as Hne by (by subst).
    rewrite batches_cons in Hfuel by done. cbn [length] in Hfuel.
    rewrite El at 1. cbn [translation_loop]. rewrite <- El.
    unfold bind at 1, console_log. rewrite emit_run.
    unfold bind at 1. rewrite run_batch_run.
    apply IH. lia.
Qed.

Lemma issue_app id l l' :
  issue rt sourcePhrases to id (l ++ l') =
  issue rt sourcePhrases to id l
  ++ issue rt sourcePhrases to (id + length l) l'.
Proof.
  revert id. induction l as [|k l IH]; intros id; cbn.
  - by rewrite Nat.add_0_r.
  - rewrite IH. do 3 f_equal. lia.
Qed.

Lemma arrivals_perm id bs :
  arrivals rt sourcePhrases to id bs ≡ₚ
  issue rt sourcePhrases to id (concat bs).
Proof.
  revert id. induction bs as [|b bs IH]; intros id; cbn; [done |].
  by rewrite issue_app, arrival_perm, IH.
Qed.

Lemma issue_lookup id l i :
  issue rt sourcePhrases to id l !! i =
  (λ key, Pending key (id + i)
     (respond rt (id + i) (or_empty (get sourcePhrases key)) (lit "en") to))
  <$> l !! i.
Proof.
  revert id i. induction l as [|k l IH]; intros id i; [done |].
  destruct i as [|i]; cbn.
  - by rewrite Nat.add_0_r.
  - rewrite IH. by replace (S id + i) with (id + S i) by lia.
Qed.

Lemma issue_keys id l : p_key <$> issue rt sourcePhrases to id l = l.
Proof. revert id. induction l as [|k l IH]; intros id; cbn; by f_equal. Qed.

Lemma translate_calls_app tr tr' :
  translate_calls (tr ++ tr') = translate_calls tr ++ translate_calls tr'.
Proof. apply omap_app. Qed.

Lemma translate_calls_call_events id l :
  translate_calls (call_events sourcePhrases to id l) =
  call_args sourcePhrases to <$> l.
Proof. revert id. induction l as [|k l IH]; intros id; cbn; by f_equal. Qed.

Lemma translate_calls_settle_events ps : translate_calls (settle_events ps) = [].
Proof.
  induction ps as [|p ps IH]; [done |].
  unfold settle_events in *. cbn. rewrite translate_calls_app, IH.
  unfold settle_events1. by destruct (p_answer p).
Qed.

Lemma translate_calls_batches_trace id bs :
  translate_calls (batches_trace rt sourcePhrases to id bs) =
  call_args sourcePhrases to <$> concat bs.
Proof.
  revert id. induction bs as [|b bs IH]; intros id; [done |].
  cbn [batches_trace concat].
  change (translate_calls (?e :: ?l)) with
    (translate_calls ([e] ++ l)).
  rewrite !translate_calls_app, translate_calls_call_events,
    translate_calls_settle_events, IH, fmap_app. done.
Qed.

End Batcher.

(** ** What the record holds after the batches *)

Section Settled.

Context (rt : runtime) (sourcePhrases : jsobject) (to : jsstring).

Implicit Types (w : world) (o : jsobject) (l : list jsstring)
  (ps : list pending) (k : jsstring).

Lemma get_settle1 o p k :
  get (settle1 o p) k =
  match p_answer p with
  | Some t =>
      if decide (k = p_key p ∧ (p_key p ∈ keys o ∨ p_key p ≠ PROTO))
      then Some (normalize t) else get o k
  | None => get o k
  end.
Proof. unfold settle1. destruct (p_answer p); [apply get_set_prop | done]. Qed.

Lemma get_settle1_other o p k :
  k ≠ p_key p → get (settle1 o p) k = get o k.
Proof.
  intros Hne. rewrite get_settle1. destruct (p_answer p); [| done].
  rewrite decide_False; [done | tauto].
Qed.

Lemma get_settle_other o ps k :
  k ∉ p_key <$> ps → get (settle o ps) k = get o k.
Proof.
  revert o. induction ps as [|p ps IH]; intros o Hk; [done |].
  cbn in Hk. apply not_elem_of_cons in Hk as [Hne Hk].
  cbn. fold (settle (settle1 o p) ps). rewrite IH by done.
  by apply get_settle1_other.
Qed.

(** The order in which the requests settle does not matter: each key is
    assigned at most once.  The assignment stores the text unless the
    key is [__proto__] and the record has no such own property. *)
Lemma get_settle o ps p :
  NoDup (p_key <$> ps) → p ∈ ps →
  get (settle o ps) (p_key p) =
  match p_answer p with
  | Some t =>
      if decide (p_key p ∈ keys o ∨ p_key p ≠ PROTO)
      then Some (normalize t) else get o (p_key p)
  | None => get o (p_key p)
  end.
Proof.
  revert o. induction ps as [|q ps IH]; intros o Hnd Hp.
  - by apply elem_of_nil in Hp.
  - cbn in Hnd. apply NoDup_cons in Hnd as [Hq Hnd].
    cbn. fold (settle (settle1 o q) ps).
    apply elem_of_cons in Hp as [-> | Hp].
    + rewrite get_settle_other by done. rewrite get_settle1.
      destruct (p_answer q); [| done]. apply decide_ext. tauto.
    + assert (p_key p ≠ p_key q) as Hne.
      { intros E. apply Hq. rewrite <- E. by apply list_elem_of_fmap_2. }
      rewrite IH by done. rewrite (get_settle1_other o q) by done.
      destruct (p_answer p); [| done]. apply decide_ext.
      rewrite <- !get_is_Some, (get_settle1_other o q) by done. tauto.
Qed.

Lemma get_arrivals id l o i k :
  NoDup l → l !! i = Some k →
  get (settle o (arrivals rt sourcePhrases to id (batches l))) k =
  match respond rt (id + i) (or_empty (get sourcePhrases k)) (lit "en") to with
  | Some t =>
      if decide (k ∈ keys o ∨ k ≠ PROTO) then Some (normalize t)
      else get o k
  | None => get o k
  end.
Proof.
  intros Hnd Hi.
  pose proof (arrivals_perm rt sourcePhrases to id (batches l)) as Hperm.
  rewrite concat_batches in Hperm.
  set (p := Pending k (id + i)
              (respond rt (id + i) (or_empty (get sourcePhrases k))
                 (lit "en") to)).
  change (get (settle o (arrivals rt sourcePhrases to id (batches l))) k)
    with (get (settle o (arrivals rt sourcePhrases to id (batches l)))
            (p_key p)).
  change (respond rt (id + i) _ _ _) with (p_answer p).
  change (k ∈ keys o ∨ k ≠ PROTO) with (p_key p ∈ keys o ∨ p_key p ≠ PROTO).
  change (get o k) with (get o (p_key p)).
  apply get_settle.
  - rewrite Hperm, issue_keys. done.
  - rewrite Hperm. apply list_elem_of_lookup. exists i.
    by rewrite issue_lookup, Hi.
Qed.

Lemma length_batches_le l : length (batches l) ≤ length l.
Proof.
  induction l as [|l Hl IH] using splice_ind; [done |].
  rewrite batches_cons by done. cbn [length].
  rewrite length_drop in IH. pose proof batch_size_pos.
  destruct l; [done |]. cbn [length] in *. lia.
Qed.

(** Lines 121-166, step by step. *)
Lemma resolve_missing_run o w :
  let missing := missingPhrases sourcePhrases o in
  let o' := settle o (arrivals rt sourcePhrases to (calls w) (batches missing)) in
  resolve_missing rt sourcePhrases to o w =
  if bool_decide (missing = []) then (w, Ok o)
  else
    (World (disk w) (calls w + length missing)
       (trace w
        ++ ConsoleLog (LogMissing missing)
           :: batches_trace rt sourcePhrases to (calls w) (batches missing)
        ++ [ConsoleLog (LogTarget o')]),
     Ok o').
Proof.
  cbn zeta. unfold resolve_missing.
  destruct (bool_decide _); [done |].
  unfold bind at 1, console_log at 1. rewrite emit_run.
  unfold bind at 1.
  rewrite translation_loop_run by apply length_batches_le.
  unfold bind, console_log, emit, ret. cbn [disk calls trace logged].
  by rewrite <- !app_assoc.
Qed.

(** The final record is not written back: the translation phase leaves
    the disk as it found it. *)
Lemma resolve_missing_disk o w :
  disk (resolve_missing rt sourcePhrases to o w).1 = disk w.
Proof.
  pose proof (resolve_missing_run o w) as H. cbn zeta in H. rewrite H.
  by destruct (bool_decide _).
Qed.

Lemma resolve_missing_trace_extends o w :
  ∃ evs, trace (resolve_missing rt sourcePhrases to o w).1 = trace w ++ evs.
Proof.
  pose proof (resolve_missing_run o w) as H. cbn zeta in H. rewrite H.
  destruct (bool_decide _); cbn [fst trace]; [exists [] | eexists; done].
  by rewrite app_nil_r.
Qed.

End Settled.

(** ** The batching loop *)

(** C7: the loop cuts the list of missing keys, in order, into
    consecutive batches of at most [TRANSLATION_BATCH_SIZE] (100) keys,
    all full but possibly the last.  Each iteration issues every call
    of its batch before any of them settles and lets all of them settle
    before the next iteration starts (the shape of [batches_trace]).
    The loop returns after exactly the ceiling of length / batch size
    iterations: that much fuel is enough, and less is not. *)
Theorem C7_batching (rt : runtime) (sourcePhrases : jsobject) (to : jsstring)
    (missing : list jsstring) (targetPhrases : jsobject) (w : world) :
  let bs := batches missing in
  TRANSLATION_BATCH_SIZE = 100 ∧
  concat bs = missing ∧
  Forall (λ b, 0 < length b ≤ TRANSLATION_BATCH_SIZE) bs ∧
  (∀ i b, bs !! i = Some b → S i < length bs →
          length b = TRANSLATION_BATCH_SIZE) ∧
  length bs =
    (length missing + (TRANSLATION_BATCH_SIZE - 1)) / TRANSLATION_BATCH_SIZE ∧
  (∀ fuel, length bs ≤ fuel →
     translation_loop rt fuel sourcePhrases to missing targetPhrases w =
     (World (disk w) (calls w + length missing)
        (trace w ++ batches_trace rt sourcePhrases to (calls w) bs),
      Ok (settle targetPhrases
            (arrivals rt sourcePhrases to (calls w) bs)))) ∧
  (∀ fuel, fuel < length bs →
     (translation_loop rt fuel sourcePhrases to missing targetPhrases w).2
     = OutOfFuel).
Proof.
  cbn zeta. split_and!.
  - apply batch_size_default.
  - apply concat_batches.
  - apply batches_sizes.
  - apply batches_full.
  - apply length_batches.
  - intros fuel. apply translation_loop_run.
  - intros fuel. apply translation_loop_short.
Qed.

(** ** Failures of single translations *)




(** ** One pass, step by step *)

Section Pass.

Context (rt : runtime).

Implicit Types (w : world) (o sourcePhrases targetPhrases : jsobject)
  (file dir sourceFile : jsstring) (l : language).

(** Lines 108-119, step by step. *)
Lemma delete_removed_run sourcePhrases file o w :
  let deleted := deletePhrases sourcePhrases o in
  let o' := foldl delete_prop o deleted in
  delete_removed sourcePhrases file o w =
  if bool_decide (deleted ≠ [])
  then
    match store file (Json o')
            (logged [ConsoleLog (LogDeleting deleted); BunWrite file (Json o')] w)
    with
    | (w', Ok _) => (w', Ok o')
    | (w', Throw e) => (w', Throw e)
    | (w', OutOfFuel) => (w', OutOfFuel)
    end
  else (w, Ok o').
Proof.
  cbn zeta. unfold delete_removed.
  destruct (bool_decide_reflect (deletePhrases sourcePhrases o ≠ [])) as [H|H].
  - unfold bind at 1, console_log. rewrite emit_run.
    unfold bind at 1, Bun_write, bind at 1. rewrite emit_run.
    rewrite logged_logged. cbn [app].
    by destruct (store _ _ _) as [w' [[]|e|]].
  - destruct (deletePhrases sourcePhrases o); [done | by destruct H].
Qed.

Lemma store_quiet file c w :
  calls (store file c w).1 = calls w ∧ trace (store file c w).1 = trace w.
Proof. rewrite store_run. by repeat (case_match; try done). Qed.

(** The deletion step makes no translation call. *)
Lemma delete_removed_quiet sourcePhrases file o w :
  let w' := (delete_removed sourcePhrases file o w).1 in
  calls w' = calls w ∧ translate_calls (trace w') = translate_calls (trace w).
Proof.
  pose proof (delete_removed_run sourcePhrases file o w) as H.
  cbn zeta in *. rewrite H. clear H.
  destruct (bool_decide _); [| done].
  set (w0 := logged _ w).
  pose proof (store_quiet file
    (Json (foldl delete_prop o (deletePhrases sourcePhrases o))) w0) as [Hc Ht].
  destruct (store _ _ w0) as [w' [[]|e|]]; cbn [fst] in *;
    rewrite Hc, Ht; subst w0; cbn [logged calls trace];
    by rewrite translate_calls_app, app_nil_r.
Qed.

Lemma delete_removed_Ok sourcePhrases file o w w' o' :
  delete_removed sourcePhrases file o w = (w', Ok o') →
  o' = foldl delete_prop o (deletePhrases sourcePhrases o).
Proof.
  pose proof (delete_removed_run sourcePhrases file o w) as H.
  cbn zeta in H. rewrite H. clear H.
  destruct (bool_decide _); [| by intros [= _ <-]].
  by destruct (store _ _ _) as [w0 [[]|e|]]; intros [= _ <-].
Qed.

(** The ensure step makes no translation call, and it leaves an
    existing file alone. *)
Lemma ensureLanguageFileExists_quiet dir file w :
  let w' := (ensureLanguageFileExists dir file w).1 in
  calls w' = calls w ∧ translate_calls (trace w') = translate_calls (trace w).
Proof.
  cbn zeta. rewrite ensureLanguageFileExists_run. cbn zeta.
  set (w1 := logged [FsStat dir] w).
  set (w2 := if exists_path (disk w) dir then w1 else (mkdir dir w1).1).
  assert (calls w2 = calls w ∧
          translate_calls (trace w2) = translate_calls (trace w)) as [Hc Ht].
  { subst w2. destruct (exists_path (disk w) dir).
    - subst w1. cbn. by rewrite translate_calls_app, app_nil_r.
    - destruct (mkdir_trace dir w1) as (-> & -> & _). subst w1. cbn.
      by rewrite !translate_calls_app, !app_nil_r. }
  destruct (exists_path (disk w2) file).
  - cbn. by rewrite translate_calls_app, app_nil_r.
  - unfold writeFile, bind. rewrite emit_run, logged_logged.
    set (w3 := logged _ w2).
    destruct (store_quiet file (Json []) w3) as [-> ->].
    subst w3. cbn. by rewrite translate_calls_app, app_nil_r.
Qed.

Lemma ensureLanguageFileExists_existing dir file w :
  is_file (disk w) file = true →
  files (disk (ensureLanguageFileExists dir file w).1) = files (disk w).
Proof.
  intros Hfile. rewrite ensureLanguageFileExists_run. cbn zeta.
  set (w1 := logged [FsStat dir] w).
  set (w2 := if exists_path (disk w) dir then w1 else (mkdir dir w1).1).
  assert (files (disk w2) = files (disk w)) as Hf.
  { subst w2. destruct (exists_path (disk w) dir); [done |].
    by destruct (mkdir_trace dir w1) as (_ & _ & ->). }
  assert (exists_path (disk w2) file = true) as ->; [| done].
  unfold exists_path, is_file in *. rewrite Hf, Hfile. apply orb_true_r.
Qed.

Lemma readJSONFile_run file o w :
  files (disk w) !! file = Some (Json o) →
  readJSONFile file w = (logged [BunFileJson file] w, Ok o).
Proof.
  intros H. unfold readJSONFile, Bun_file_json, bind, emit, get_disk.
  cbn. by rewrite H.
Qed.

Lemma readJSONFile_Ok file o w w' :
  readJSONFile file w = (w', Ok o) →
  files (disk w) !! file = Some (Json o) ∧ w' = logged [BunFileJson file] w.
Proof.
  unfold readJSONFile, Bun_file_json, bind, emit, get_disk. cbn.
  destruct (files (disk w) !! file) as [[o'|]|]; [| done..].
  by intros [= <- <-].
Qed.

(** A pass whose ensure, read and deletion steps succeed continues with
    the translation phase. *)
Lemma pass_steps sourceFile sourcePhrases l w w1 o w2 o' :
  ensureLanguageFileExists (targetDir l) (targetFile l sourceFile) w
    = (w1, Ok tt) →
  files (disk w1) !! targetFile l sourceFile = Some (Json o) →
  delete_removed sourcePhrases (targetFile l sourceFile) o
    (logged [BunFileJson (targetFile l sourceFile)] w1) = (w2, Ok o') →
  pass rt sourceFile sourcePhrases l w =
  resolve_missing rt sourcePhrases (code l) o' w2.
Proof.
  intros He Hr Hd. unfold pass, bind.
  by rewrite He, (readJSONFile_run _ _ _ Hr), Hd.
Qed.

Lemma pass_Ok sourceFile sourcePhrases l w w' o'' :
  pass rt sourceFile sourcePhrases l w = (w', Ok o'') →
  ∃ w1 o w2,
    ensureLanguageFileExists (targetDir l) (targetFile l sourceFile) w
      = (w1, Ok tt) ∧
    files (disk w1) !! targetFile l sourceFile = Some (Json o) ∧
    delete_removed sourcePhrases (targetFile l sourceFile) o
      (logged [BunFileJson (targetFile l sourceFile)] w1)
      = (w2, Ok (foldl delete_prop o (deletePhrases sourcePhrases o))) ∧
    resolve_missing rt sourcePhrases (code l)
      (foldl delete_prop o (deletePhrases sourcePhrases o)) w2 = (w', Ok o'').
Proof.
  unfold pass, bind.
  destruct (ensureLanguageFileExists _ _ w) as [w1 [[]|e|]] eqn:He; [| done..].
  destruct (readJSONFile _ w1) as [w1' [o|e|]] eqn:Hr; [| done..].
  apply readJSONFile_Ok in Hr as [Hr ->].
  destruct (delete_removed _ _ o _) as [w2 [o'|e|]] eqn:Hd; [| done..].
  pose proof (delete_removed_Ok _ _ _ _ _ _ Hd) as ->.
  intros Hres. by exists w1, o, w2.
Qed.

End Pass.

(** ** Translation calls of a pass *)

(** C10: in a pass that completes, the calls to the translation client
    are, in order, one call per key of the list of missing phrases, with
    the source phrase of the key ([""] when it is falsy), ["en"] and the
    code of the target language; the list has no repetition and holds
    exactly the source keys that the target file lacked, so no other key
    gets a call. *)
Theorem C10_one_call_per_missing_key (rt : runtime) (sourceFile : jsstring)
    (sourcePhrases : jsobject) (l : language) (w w' : world)
    (result : jsobject) :
  pass rt sourceFile sourcePhrases l w = (w', Ok result) →
  ∃ targetPhrases,
    files (disk (ensureLanguageFileExists (targetDir l)
                   (targetFile l sourceFile) w).1)
      !! targetFile l sourceFile = Some (Json targetPhrases) ∧
    let missing :=
      missingPhrases sourcePhrases
        (foldl delete_prop targetPhrases
           (deletePhrases sourcePhrases targetPhrases)) in
    translate_calls (trace w') =
      translate_calls (trace w)
      ++ ((λ key, (or_empty (get sourcePhrases key), lit "en", code l))
            <$> missing) ∧
    calls w' = calls w + length missing ∧
    NoDup missing ∧
    (∀ k, k ∈ missing ↔ k ∈ keys sourcePhrases ∧ k ∉ keys targetPhrases).
Proof.
  intros Hpass.
  apply pass_Ok in Hpass as (w1 & o & w2 & He & Hr & Hd & Hres).
  exists o. rewrite He. split; [done |]. cbn zeta.
  split_and!;
    [| | apply NoDup_difference
       | apply elem_of_missingPhrases_after_deletion].
  - pose proof (ensureLanguageFileExists_quiet (targetDir l)
                  (targetFile l sourceFile) w) as [_ Ht1].
    pose proof (delete_removed_quiet sourcePhrases (targetFile l sourceFile) o
                  (logged [BunFileJson (targetFile l sourceFile)] w1))
      as [_ Ht2].
    cbn zeta in Ht1, Ht2. rewrite He in Ht1. rewrite Hd in Ht2.
    cbn [fst logged trace] in Ht1, Ht2.
    rewrite translate_calls_app, app_nil_r, Ht1 in Ht2.
    rewrite <- Ht2. clear Ht1 Ht2.
    pose proof (resolve_missing_run rt sourcePhrases (code l)
                  (foldl delete_prop o (deletePhrases sourcePhrases o)) w2)
      as Hrun.
    cbn zeta in Hrun. rewrite Hrun in Hres. clear Hrun.
    destruct (bool_decide_reflect
      (missingPhrases sourcePhrases
         (foldl delete_prop o (deletePhrases sourcePhrases o)) = []))
      as [E | _].
    + injection Hres as <- _. rewrite E. by rewrite app_nil_r.
    + injection Hres as <- _. cbn [trace].
      rewrite translate_calls_app. f_equal.
      change (translate_calls (?e :: ?t)) with (translate_calls ([e] ++ t)).
      rewrite !translate_calls_app, translate_calls_batches_trace,
        concat_batches.
      cbn. by rewrite app_nil_r.
  - pose proof (ensureLanguageFileExists_quiet (targetDir l)
                  (targetFile l sourceFile) w) as [Hc1 _].
    pose proof (delete_removed_quiet sourcePhrases (targetFile l sourceFile) o
                  (logged [BunFileJson (targetFile l sourceFile)] w1))
      as [Hc2 _].
    cbn zeta in Hc1, Hc2. rewrite He in Hc1. rewrite Hd in Hc2.
    cbn [fst logged calls] in Hc1, Hc2.
    pose proof (resolve_missing_run rt sourcePhrases (code l)
                  (foldl delete_prop o (deletePhrases sourcePhrases o)) w2)
      as Hrun.
    cbn zeta in Hrun. rewrite Hrun in Hres. clear Hrun.
    destruct (bool_decide_reflect
      (missingPhrases sourcePhrases
         (foldl delete_prop o (deletePhrases sourcePhrases o)) = []))
      as [E | _].
    + injection Hres as <- _. rewrite E. cbn. lia.
    + injection Hres as <- _. cbn [calls]. lia.
Qed.

Lemma C10_one_call_per_missing_key_witness :
  translate_calls
    (trace (pass Scenario.tagging (lit "translation.json") Scenario.source
              Scenario.es Scenario.start).1)
  = [(lit "Bye", lit "en", lit "es")].
Proof.
  destruct (C10_one_call_per_missing_key Scenario.tagging
              (lit "translation.json") Scenario.source Scenario.es
              Scenario.start
              (pass Scenario.tagging (lit "translation.json") Scenario.source
                 Scenario.es Scenario.start).1
              [(lit "hello", lit "Hola"); (lit "bye", lit "<i>Bye</i>")])
    as (o & Ho & Hcalls & _).
  - vm_compute. reflexivity.
  - rewrite Hcalls. revert Ho. vm_compute. intros [= <-]. reflexivity.
Defined.

(** ** A pass with nothing to do *)

(** C8: when the target file, once ensured, holds exactly the keys of
    the source, the pass does one more thing after the ensure step, the
    read.  It makes no translation call and the disk is as the ensure
    step left it; if the target file existed before the pass, no file
    has changed at all. *)
Theorem C8_nothing_to_do (rt : runtime) (sourceFile : jsstring)
    (sourcePhrases targetPhrases : jsobject) (l : language) (w w1 : world) :
  ensureLanguageFileExists (targetDir l) (targetFile l sourceFile) w
    = (w1, Ok tt) →
  files (disk w1) !! targetFile l sourceFile = Some (Json targetPhrases) →
  deletePhrases sourcePhrases targetPhrases = [] →
  missingPhrases sourcePhrases targetPhrases = [] →
  let r := pass rt sourceFile sourcePhrases l w in
  r = (logged [BunFileJson (targetFile l sourceFile)] w1, Ok targetPhrases) ∧
  translate_calls (trace r.1) = translate_calls (trace w) ∧
  disk r.1 = disk w1 ∧
  (is_file (disk w) (targetFile l sourceFile) = true →
   files (disk r.1) = files (disk w)).
Proof.
  intros He Hr Hdel Hmiss. cbn zeta.
  assert (pass rt sourceFile sourcePhrases l w =
          (logged [BunFileJson (targetFile l sourceFile)] w1, Ok targetPhrases))
    as ->.
  { rewrite (pass_steps rt sourceFile sourcePhrases l w w1 targetPhrases
               (logged [BunFileJson (targetFile l sourceFile)] w1)
               targetPhrases He Hr).
    - pose proof (resolve_missing_run rt sourcePhrases (code l) targetPhrases
                    (logged [BunFileJson (targetFile l sourceFile)] w1)) as H.
      cbn zeta in H. rewrite H, Hmiss. done.
    - pose proof (delete_removed_run sourcePhrases (targetFile l sourceFile)
                    targetPhrases
                    (logged [BunFileJson (targetFile l sourceFile)] w1)) as H.
      cbn zeta in H. rewrite H, Hdel. done. }
  cbn [fst logged trace disk]. split_and!; [done | | done |].
  - pose proof (ensureLanguageFileExists_quiet (targetDir l)
                  (targetFile l sourceFile) w) as [_ Ht].
    cbn zeta in Ht. rewrite He in Ht. cbn [fst] in Ht.
    by rewrite translate_calls_app, app_nil_r.
  - intros Hfile.
    pose proof (ensureLanguageFileExists_existing (targetDir l)
                  (targetFile l sourceFile) w Hfile) as Hf.
    by rewrite He in Hf.
Qed.

Lemma C8_nothing_to_do_witness :
  files (disk (pass Scenario.tagging (lit "translation.json") Scenario.source
                 Scenario.en Scenario.start).1)
  = files (disk Scenario.start).
Proof.
  refine (proj2 (proj2 (proj2
    (C8_nothing_to_do Scenario.tagging (lit "translation.json")
       Scenario.source Scenario.source Scenario.en Scenario.start
       (logged [FsStat (lit "public/locales/en");
                FsStat (lit "public/locales/en/translation.json")]
          Scenario.start) _ _ _ _))) _);
    vm_compute; reflexivity.
Defined.

(** ** The source language among the targets *)

Lemma english_targetDir l : code l = lit "en" → targetDir l = ENGLISH_BASE.
Proof. unfold targetDir. intros ->. vm_compute. reflexivity. Qed.

(** Whatever the tree, a pass begins with the lookup of its target
    directory, the first step of the ensure operation. *)
Lemma ensureLanguageFileExists_begins (dir file : jsstring) (w : world) :
  ∃ rest,
    trace (ensureLanguageFileExists dir file w).1
    = trace w ++ FsStat dir :: rest.
Proof.
  rewrite ensureLanguageFileExists_run. cbn zeta.
  set (w1 := logged [FsStat dir] w).
  set (w2 := if exists_path (disk w) dir then w1 else (mkdir dir w1).1).
  assert (∃ rest, trace w2 = trace w ++ FsStat dir :: rest) as [r2 H2].
  { subst w2. destruct (exists_path (disk w) dir).
    - by exists [].
    - destruct (mkdir_trace dir w1) as (-> & _). subst w1. cbn.
      rewrite <- app_assoc. by eexists. }
  destruct (exists_path (disk w2) file).
  - cbn. rewrite H2, <- app_assoc. by eexists.
  - unfold writeFile, bind. rewrite emit_run, logged_logged.
    set (w3 := logged _ w2).
    destruct (store_quiet file (Json []) w3) as [_ ->].
    subst w3. cbn. rewrite H2, <- app_assoc. by eexists.
Qed.

Lemma pass_begins (rt : runtime) (sourceFile : jsstring)
    (sourcePhrases : jsobject) (l : language) (w : world) :
  ∃ rest,
    trace (pass rt sourceFile sourcePhrases l w).1
    = trace w ++ FsStat (targetDir l) :: rest.
Proof.
  unfold pass, bind.
  destruct (ensureLanguageFileExists_begins (targetDir l)
              (targetFile l sourceFile) w) as [r1 H1].
  destruct (ensureLanguageFileExists _ _ w) as [w1 [[]|e|]];
    cbn [fst] in H1; [| by eexists..].
  assert (∃ r2, trace (readJSONFile (targetFile l sourceFile) w1).1
                = trace w ++ FsStat (targetDir l) :: r2) as [r2 H2].
  { unfold readJSONFile, Bun_file_json, bind, emit, get_disk, throw. cbn.
    exists (r1 ++ [BunFileJson (targetFile l sourceFile)]).
    rewrite H1, <- app_assoc.
    by repeat case_match. }
  destruct (readJSONFile _ w1) as [w2 [o|e|]]; cbn [fst] in H2;
    [| by eexists..].
  assert (∃ r3, trace (delete_removed sourcePhrases
                         (targetFile l sourceFile) o w2).1
                = trace w ++ FsStat (targetDir l) :: r3) as [r3 H3].
  { pose proof (delete_removed_run sourcePhrases (targetFile l sourceFile)
                  o w2) as H.
    cbn zeta in H. rewrite H. clear H.
    destruct (bool_decide _); [| by eexists].
    set (w0 := logged _ w2).
    destruct (store_quiet (targetFile l sourceFile)
                (Json (foldl delete_prop o (deletePhrases sourcePhrases o)))
                w0) as [_ Ht].
    exists (r2 ++ [ConsoleLog (LogDeleting (deletePhrases sourcePhrases o));
                   BunWrite (targetFile l sourceFile)
                     (Json (foldl delete_prop o
                              (deletePhrases sourcePhrases o)))]).
    destruct (store _ _ w0) as [w' [[]|e|]]; cbn [fst] in *;
      rewrite Ht; subst w0; cbn [logged trace]; by rewrite H2, <- app_assoc. }
  destruct (delete_removed _ _ o w2) as [w3 [o'|e|]]; cbn [fst] in H3;
    [| by eexists..].
  destruct (resolve_missing_trace_extends rt sourcePhrases (code l) o' w3)
    as [evs ->].
  rewrite H3, <- app_assoc. by eexists.
Qed.

(** The pass for the source language, on a tree in which the source
    file is what was read. *)
Lemma english_pass (rt : runtime) (sourceFile : jsstring)
    (sourcePhrases : jsobject) (l : language) (w : world) :
  code l = lit "en" →
  is_dir (disk w) ENGLISH_BASE = true →
  files (disk w) !! (ENGLISH_BASE ++ lit "/" ++ sourceFile)
    = Some (Json sourcePhrases) →
  pass rt sourceFile sourcePhrases l w =
  (logged [FsStat ENGLISH_BASE;
           FsStat (ENGLISH_BASE ++ lit "/" ++ sourceFile);
           BunFileJson (ENGLISH_BASE ++ lit "/" ++ sourceFile)] w,
   Ok sourcePhrases).
Proof.
  intros Hl Hdir Hfile.
  assert (targetFile l sourceFile = ENGLISH_BASE ++ lit "/" ++ sourceFile)
    as Htf by (unfold targetFile; by rewrite english_targetDir).
  rewrite (pass_steps rt sourceFile sourcePhrases l w
             (logged [FsStat ENGLISH_BASE;
                      FsStat (ENGLISH_BASE ++ lit "/" ++ sourceFile)] w)
             sourcePhrases
             (logged [FsStat ENGLISH_BASE;
                      FsStat (ENGLISH_BASE ++ lit "/" ++ sourceFile);
                      BunFileJson (ENGLISH_BASE ++ lit "/" ++ sourceFile)] w)
             sourcePhrases).
  - pose proof (resolve_missing_run rt sourcePhrases (code l) sourcePhrases
      (logged [FsStat ENGLISH_BASE;
               FsStat (ENGLISH_BASE ++ lit "/" ++ sourceFile);
               BunFileJson (ENGLISH_BASE ++ lit "/" ++ sourceFile)] w)) as H.
    cbn zeta in H. rewrite H. unfold missingPhrases.
    by rewrite difference_self.
  - rewrite ensureLanguageFileExists_run, Htf, english_targetDir by done.
    cbn zeta.
    assert (exists_path (disk w) ENGLISH_BASE = true) as ->
      by (unfold exists_path; by rewrite Hdir).
    assert (exists_path (disk (logged [FsStat ENGLISH_BASE] w))
              (ENGLISH_BASE ++ lit "/" ++ sourceFile) = true) as ->.
    { unfold exists_path, is_file. cbn [logged disk]. rewrite Hfile.
      rewrite (bool_decide_eq_true_2 (is_Some (Some _))) by eauto.
      apply orb_true_r. }
    by rewrite logged_logged.
  - by rewrite Htf.
  - rewrite Htf, logged_logged. cbn [app].
    pose proof (delete_removed_run sourcePhrases
      (ENGLISH_BASE ++ lit "/" ++ sourceFile) sourcePhrases
      (logged [FsStat ENGLISH_BASE;
               FsStat (ENGLISH_BASE ++ lit "/" ++ sourceFile);
               BunFileJson (ENGLISH_BASE ++ lit "/" ++ sourceFile)] w)) as H.
    cbn zeta in H. rewrite H. unfold deletePhrases.
    by rewrite difference_self.
Qed.

(** C4 (as written): were no pass performed for the source language,
    every pass that the inner loop starts for the code [en] would leave
    the trace as it is.  The loop starts such a pass, and on the sample
    tree this pass looks up the directory and the file and reads the
    file. *)
Lemma C4_english_pass_counterexample :
  ¬ (∀ (rt : runtime) (sourceFile : jsstring) (sourcePhrases : jsobject)
       (l : language) (t : IO jsobject) (w : world),
       (l, t) ∈ inner_loop rt sourceFile sourcePhrases →
       code l = lit "en" →
       trace (t w).1 = trace w).
Proof.
  intros H.
  specialize (H Scenario.tagging (lit "translation.json") Scenario.source
                Scenario.en
                (pass Scenario.tagging (lit "translation.json")
                   Scenario.source Scenario.en)
                Scenario.start).
  discriminate H; [left | reflexivity].
Qed.

(** C4 (amended): the inner loop starts a pass for every configured
    descriptor, in order, the one of the source language included, and
    every pass it starts begins with the lookup of its target directory.
    For the source language the target file is the source file itself:
    on a tree where it holds what was read, the pass performs the ensure
    step (two lookups) and the read, finds nothing to delete and nothing
    missing, and neither writes nor translates. *)
Theorem C4_source_language_pass (rt : runtime) (sourceFile : jsstring)
    (sourcePhrases : jsobject) :
  List.map fst (inner_loop rt sourceFile sourcePhrases) = targetLanguages ∧
  (∃ l t, (l, t) ∈ inner_loop rt sourceFile sourcePhrases ∧
          code l = lit "en") ∧
  (∀ l t w,
     (l, t) ∈ inner_loop rt sourceFile sourcePhrases →
     ∃ rest, trace (t w).1 = trace w ++ FsStat (targetDir l) :: rest) ∧
  ∀ l t w,
    (l, t) ∈ inner_loop rt sourceFile sourcePhrases →
    code l = lit "en" →
    is_dir (disk w) ENGLISH_BASE = true →
    files (disk w) !! (ENGLISH_BASE ++ lit "/" ++ sourceFile)
      = Some (Json sourcePhrases) →
    t w =
    (logged [FsStat ENGLISH_BASE;
             FsStat (ENGLISH_BASE ++ lit "/" ++ sourceFile);
             BunFileJson (ENGLISH_BASE ++ lit "/" ++ sourceFile)] w,
     Ok sourcePhrases).
Proof.
  split_and!.
  - unfold inner_loop. rewrite List.map_map. apply List.map_id.
  - eexists _, _. split; [left | done].
  - intros l t w Hin.
    unfold inner_loop in Hin. apply list_elem_of_In, in_map_iff in Hin
      as (l' & [= <- <-] & _).
    apply pass_begins.
  - intros l t w Hin Hl Hdir Hfile.
    unfold inner_loop in Hin. apply list_elem_of_In, in_map_iff in Hin
      as (l' & [= <- <-] & _).
    by apply english_pass.
Qed.

Lemma C4_source_language_pass_witness :
  pass Scenario.tagging (lit "translation.json") Scenario.source Scenario.en
    Scenario.start =
  (logged [FsStat ENGLISH_BASE;
           FsStat (ENGLISH_BASE ++ lit "/" ++ lit "translation.json");
           BunFileJson (ENGLISH_BASE ++ lit "/" ++ lit "translation.json")]
     Scenario.start,
   Ok Scenario.source).
Proof.
  refine (proj2 (proj2 (proj2
    (C4_source_language_pass Scenario.tagging (lit "translation.json")
       Scenario.source))) Scenario.en _ Scenario.start _ _ _ _);
    [left | vm_compute; reflexivity..].
Defined.

(** ** The final write *)

(** C1 on the sample run: the pass completes; [old] is deleted and the
    deletion is written; [bye] is translated and stored in the record in
    memory.  The writes of lines 165-166 are commented out, so the file
    still lacks [bye]: its keys are not the keys of the source. *)
Lemma C1_persisted_keys_sample :
  let r := pass Scenario.tagging (lit "translation.json") Scenario.source
             Scenario.es Scenario.start in
  r.2 = Ok [(lit "hello", lit "Hola"); (lit "bye", lit "<i>Bye</i>")] ∧
  files (disk r.1) !! lit "public/locales/es/translation.json"
    = Some (Json [(lit "hello", lit "Hola")]) ∧
  keys [(lit "hello", lit "Hola")] ≠ keys Scenario.source.
Proof. vm_compute. split_and!; [reflexivity.. | discriminate]. Qed.

(** C2 on the sample run: the translation of [bye] succeeds and its
    normalised text is in the record in memory when the pass ends, but
    the record is not written back and the file has no [bye]. *)
Lemma C2_translation_not_persisted_sample :
  let r := pass Scenario.tagging (lit "translation.json") Scenario.source
             Scenario.es Scenario.start in
  respond Scenario.tagging 0 (lit "Bye") (lit "en") (lit "es")
    = Some (lit "<i> Bye</i>") ∧
  (∃ o, r.2 = Ok o ∧ get o (lit "bye") = Some (lit "<i>Bye</i>")) ∧
  (∃ o, files (disk r.1) !! lit "public/locales/es/translation.json"
          = Some (Json o) ∧ get o (lit "bye") = None).
Proof.
  cbn zeta. split_and!.
  - vm_compute. reflexivity.
  - eexists. split; vm_compute; reflexivity.
  - eexists. split; vm_compute; reflexivity.
Qed.

(** * Further properties *)

(** ** More on the normalisation *)

Lemma gt_followed_by_cons2 P c w s :
  gt_followed_by P (c :: w :: s) =
  (c =? GT)%N && P w || gt_followed_by P (w :: s).
Proof. reflexivity. Qed.

Lemma length_normalize s : length (normalize s) ≤ length s.
Proof.
  induction s as [|c|c w s IH1 IH2] using list_pair_ind; [done.. |].
  rewrite normalize_cons2. destruct (_ && _); cbn [length] in *; lia.
Qed.

(** X1: the normalisation changes a text exactly when some [>] in it is
    directly followed by a whitespace unit. *)
Theorem X1_normalize_fixed_iff (s : jsstring) :
  normalize s = s ↔ gt_followed_by is_whitespace s = false.
Proof.
  split; [| apply normalize_fixed].
  induction s as [|c|c w s IH1 IH2] using list_pair_ind; [done.. |].
  rewrite normalize_cons2, gt_followed_by_cons2.
  destruct ((c =? GT)%N && is_whitespace w) eqn:E.
  - intros H. exfalso.
    assert (length (normalize s) = S (length s)) as Hlen
      by (injection H as _ H; by rewrite H).
    pose proof (length_normalize s). lia.
  - intros [= H]. cbn [orb]. by apply IH2.
Qed.

(** X2: the normalisation only ever drops whitespace: what is left when
    the whitespace units are taken out of the text is the same before
    and after, and the text never grows. *)
Theorem X2_normalize_keeps_text (s : jsstring) :
  List.filter (λ c, negb (is_whitespace c)) (normalize s)
    = List.filter (λ c, negb (is_whitespace c)) s ∧
  length (normalize s) ≤ length s.
Proof.
  split; [| apply length_normalize].
  induction s as [|c|c w s IH1 IH2] using list_pair_ind; [done.. |].
  rewrite normalize_cons2.
  destruct (c =? GT)%N eqn:Hc; cbn [andb].
  - destruct (is_whitespace w) eqn:Hw.
    + apply N.eqb_eq in Hc as ->. cbn [List.filter].
      rewrite Hw. cbn [negb]. by rewrite IH1.
    + cbn [List.filter] in *. by rewrite IH2.
  - cbn [List.filter] in *. by rewrite IH2.
Qed.

(** X3: one whitespace unit is dropped per bracket.  When two follow a
    [>], the second one stays, so the stored text can still hold a [>]
    followed by a space. *)
Theorem X3_normalize_drops_one (w1 w2 : code_unit) (s : jsstring) :
  is_whitespace w1 = true → is_whitespace w2 = true →
  normalize (GT :: w1 :: w2 :: s) = GT :: w2 :: normalize s.
Proof.
  intros H1 H2. rewrite normalize_cons2, H1. cbn [N.eqb andb].
  change ((GT =? GT)%N) with true. cbn [andb]. f_equal.
  destruct s as [|c s]; [done |].
  rewrite normalize_cons2.
  assert ((w2 =? GT)%N = false) as ->; [| done].
  apply N.eqb_neq. intros ->. discriminate H2.
Qed.

Lemma X3_normalize_drops_one_witness :
  normalize (GT :: 32 :: 32 :: [120])%N = (GT :: 32 :: normalize [120])%N.
Proof. apply X3_normalize_drops_one; reflexivity. Defined.

(** ** More on the diff *)

Lemma difference_from_sublist seen first :
  difference_from seen first `sublist_of` first.
Proof.
  revert seen. induction first as [|x first IH]; intros seen; cbn.
  - constructor.
  - case_decide; [apply sublist_cons | apply sublist_skip]; apply IH.
Qed.

(** X4: the list that [difference] returns keeps the order of its first
    argument: it is that list with some elements left out.  The missing
    phrases are therefore translated in the order of the source file. *)
Theorem X4_missing_in_source_order (sourcePhrases targetPhrases : jsobject) :
  missingPhrases sourcePhrases targetPhrases `sublist_of` keys sourcePhrases ∧
  deletePhrases sourcePhrases targetPhrases `sublist_of` keys targetPhrases.
Proof. split; apply difference_from_sublist. Qed.

(** X5: nothing is to be deleted and nothing is missing exactly when the
    two records have the same keys. *)
Theorem X5_in_sync_iff (sourcePhrases targetPhrases : jsobject) :
  deletePhrases sourcePhrases targetPhrases = [] ∧
  missingPhrases sourcePhrases targetPhrases = []
  ↔ ∀ k, k ∈ keys sourcePhrases ↔ k ∈ keys targetPhrases.
Proof.
  unfold deletePhrases, missingPhrases. rewrite !difference_nil_iff.
  split; [intros [H1 H2] k; split; auto | intros H; split; intros k; apply H].
Qed.

Lemma foldl_delete_prop_filter (o : jsobject) (ds : list jsstring) :
  foldl delete_prop o ds =
  List.filter (λ p, bool_decide (p.1 ∉ ds)) o.
Proof.
  revert o. induction ds as [|d ds IH]; intros o.
  - cbn. symmetry. apply forallb_filter_id, forallb_forall.
    intros p _. apply bool_decide_eq_true_2, not_elem_of_nil.
  - cbn [foldl]. rewrite IH. unfold delete_prop.
    induction o as [|p o IHo]; [done |]. cbn [List.filter].
    destruct (decide (p.1 = d)) as [E | E].
    + rewrite (bool_decide_eq_true_2 _ E). cbn [negb].
      rewrite (bool_decide_eq_false_2 (p.1 ∉ d :: ds)) by set_solver.
      apply IHo.
    + rewrite (bool_decide_eq_false_2 _ E). cbn [negb List.filter].
      rewrite IHo.
      destruct (decide (p.1 ∈ ds)) as [Hin | Hin].
      * rewrite !bool_decide_eq_false_2 by set_solver. done.
      * rewrite !bool_decide_eq_true_2 by set_solver. done.
Qed.

Lemma foldl_delete_prop_deletePhrases (sourcePhrases targetPhrases : jsobject) :
  foldl delete_prop targetPhrases (deletePhrases sourcePhrases targetPhrases)
  = List.filter (λ p, bool_decide (p.1 ∈ keys sourcePhrases)) targetPhrases.
Proof.
  rewrite foldl_delete_prop_filter. apply List.filter_ext_in.
  intros [k v] Hin. cbn [fst].
  assert (k ∈ keys targetPhrases) as Hk.
  { unfold keys. apply list_elem_of_fmap. exists (k, v).
    split; [done | by apply list_elem_of_In]. }
  unfold deletePhrases.
  destruct (decide (k ∈ keys sourcePhrases)) as [HS | HS].
  - rewrite !bool_decide_eq_true_2; [done.. |].
    rewrite elem_of_difference. tauto.
  - rewrite !bool_decide_eq_false_2; [done.. |].
    rewrite elem_of_difference. tauto.
Qed.

(** X6: the deletions leave exactly the entries of the target whose key
    the source has, with their values and in their order. *)
Theorem X6_deletions_filter (sourcePhrases targetPhrases : jsobject) :
  foldl delete_prop targetPhrases (deletePhrases sourcePhrases targetPhrases)
  = List.filter (λ p, bool_decide (p.1 ∈ keys sourcePhrases)) targetPhrases.
Proof. apply foldl_delete_prop_deletePhrases. Qed.

(** ** More on the batcher *)

Section BatcherTrace.

Context (rt : runtime) (sourcePhrases : jsobject) (to : jsstring).

Implicit Types (w : world) (o : jsobject) (l b : list jsstring)
  (ps : list pending) (tr : list event).

Lemma issued_ids_app tr tr' :
  issued_ids (tr ++ tr') = issued_ids tr ++ issued_ids tr'.
Proof. apply omap_app. Qed.

Lemma settled_ids_app tr tr' :
  settled_ids (tr ++ tr') = settled_ids tr ++ settled_ids tr'.
Proof. apply omap_app. Qed.

Lemma issued_ids_call_events id b :
  issued_ids (call_events sourcePhrases to id b) = seq id (length b).
Proof. revert id. induction b as [|k b IH]; intros id; cbn; by f_equal. Qed.

Lemma settled_ids_call_events id b :
  settled_ids (call_events sourcePhrases to id b) = [].
Proof. revert id. induction b as [|k b IH]; intros id; cbn; by f_equal. Qed.

Lemma issued_ids_settle_events ps : issued_ids (settle_events ps) = [].
Proof.
  induction ps as [|p ps IH]; [done |].
  unfold settle_events in *. cbn. rewrite issued_ids_app, IH.
  unfold settle_events1. by destruct (p_answer p).
Qed.

Lemma settled_ids_settle_events ps :
  settled_ids (settle_events ps) = p_id <$> ps.
Proof.
  induction ps as [|p ps IH]; [done |].
  unfold settle_events in *. cbn. rewrite settled_ids_app, IH.
  unfold settle_events1. by destruct (p_answer p).
Qed.

Lemma issue_ids id b :
  p_id <$> issue rt sourcePhrases to id b = seq id (length b).
Proof. revert id. induction b as [|k b IH]; intros id; cbn; by f_equal. Qed.

Lemma length_issue id b : length (issue rt sourcePhrases to id b) = length b.
Proof. by rewrite <- (length_fmap p_id), issue_ids, length_seq. Qed.

Lemma length_issued_ids_take m tr :
  length (issued_ids (take m tr)) ≤ length (issued_ids tr).
Proof.
  rewrite <- (take_drop m tr) at 2. rewrite issued_ids_app, length_app. lia.
Qed.

Lemma length_settled_ids_take m tr :
  length (settled_ids (take m tr)) ≤ length (settled_ids tr).
Proof.
  rewrite <- (take_drop m tr) at 2. rewrite settled_ids_app, length_app. lia.
Qed.

Lemma length_filter_le_impl {A} (P Q : A → bool) (xs : list A) :
  (∀ x, P x = true → Q x = true) →
  length (List.filter P xs) ≤ length (List.filter Q xs).
Proof.
  intros H. induction xs as [|x xs IH]; [done |]. cbn.
  destruct (P x) eqn:HP.
  - rewrite (H x HP). cbn. lia.
  - destruct (Q x); cbn; lia.
Qed.

Lemma length_outstanding_le tr :
  length (outstanding tr) ≤ length (issued_ids tr).
Proof. apply List.filter_length_le. Qed.

(** Once every call of [tr] has settled, what follows starts afresh. *)
Lemma length_outstanding_app tr tr' :
  (∀ id, id ∈ issued_ids tr → id ∈ settled_ids tr) →
  length (outstanding (tr ++ tr')) ≤ length (outstanding tr').
Proof.
  intros Hclosed. unfold outstanding.
  rewrite issued_ids_app, settled_ids_app, List.filter_app, length_app.
  assert (∀ xs : list nat,
            (∀ id, id ∈ xs → id ∈ settled_ids tr) →
            List.filter
              (λ id, bool_decide (id ∉ settled_ids tr ++ settled_ids tr'))
              xs = []) as Hnil.
  { induction xs as [|x xs IH]; intros Hxs; [done |].
    cbn. rewrite bool_decide_eq_false_2.
    - apply IH. intros id Hid. apply Hxs. by right.
    - intros Hn. apply Hn, elem_of_app. left. apply Hxs. left. }
  rewrite (Hnil _ Hclosed).
  cbn. apply length_filter_le_impl. intros x Hx.
  apply bool_decide_eq_true in Hx. apply bool_decide_eq_true_2.
  set_solver.
Qed.

Lemma outstanding_at_most_nil n : outstanding_at_most n [].
Proof. intros m. rewrite take_nil. split; [done | cbn; lia]. Qed.

Lemma outstanding_at_most_app n tr tr' :
  outstanding_at_most n tr →
  (∀ id, id ∈ issued_ids tr → id ∈ settled_ids tr) →
  outstanding_at_most n tr' →
  outstanding_at_most n (tr ++ tr').
Proof.
  intros H Hclosed H' m. rewrite take_app.
  destruct (decide (m ≤ length tr)) as [Hm | Hm].
  - replace (m - length tr) with 0 by lia. rewrite take_0, app_nil_r.
    apply H.
  - rewrite take_ge by lia. destruct (H' (m - length tr)) as [Ha Hb].
    split.
    + intros id. rewrite settled_ids_app, issued_ids_app, !elem_of_app.
      intros [Hid | Hid]; [left | right; by apply Ha].
      destruct (H (length tr)) as [Hc _].
      rewrite take_ge in Hc by lia. by apply Hc.
    + pose proof (length_outstanding_app tr (take (m - length tr) tr')
                    Hclosed). lia.
Qed.

Lemma outstanding_at_most_cons n e tr :
  issued_id e = None → settled_id e = None →
  outstanding_at_most n tr → outstanding_at_most n (e :: tr).
Proof.
  intros Hi Hs H [|m]; [split; [done | cbn; lia] |].
  cbn [take].
  assert (issued_ids (e :: take m tr) = issued_ids (take m tr)) as Ei
    by (unfold issued_ids; cbn; by rewrite Hi).
  assert (settled_ids (e :: take m tr) = settled_ids (take m tr)) as Es
    by (unfold settled_ids; cbn; by rewrite Hs).
  unfold outstanding. rewrite Ei, Es. apply H.
Qed.

(** One batch: every call is issued, then every call settles. *)
Lemma outstanding_at_most_batch n id b :
  length b ≤ n →
  let tr := call_events sourcePhrases to id b
            ++ settle_events (arrival rt (issue rt sourcePhrases to id b)) in
  outstanding_at_most n tr ∧
  (∀ i, i ∈ issued_ids tr → i ∈ settled_ids tr).
Proof.
  intros Hb. cbn zeta.
  set (X := call_events sourcePhrases to id b).
  set (Y := settle_events _).
  assert (issued_ids X = seq id (length b)) as HX
    by (subst X; apply issued_ids_call_events).
  assert (settled_ids Y ≡ₚ seq id (length b)) as HY.
  { subst Y. by rewrite settled_ids_settle_events, (arrival_perm rt),
      issue_ids. }
  assert (settled_ids X = []) as HXs
    by (subst X; apply settled_ids_call_events).
  assert (issued_ids Y = []) as HYi
    by (subst Y; apply issued_ids_settle_events).
  assert (∀ m, settled_ids (take m X) = []) as HXm.
  { intros m. pose proof (length_settled_ids_take m X) as H.
    rewrite HXs in H.
    by destruct (settled_ids (take m X)); [| cbn in H; lia]. }
  assert (∀ m, issued_ids (take m Y) = []) as HYm.
  { intros m. pose proof (length_issued_ids_take m Y) as H.
    rewrite HYi in H.
    by destruct (issued_ids (take m Y)); [| cbn in H; lia]. }
  split.
  - intros m. rewrite take_app. split.
    + intros i. rewrite settled_ids_app, issued_ids_app, HXm, HYm, app_nil_r.
      cbn [app]. intros Hi.
      destruct (decide (m ≤ length X)) as [Hm | Hm].
      * replace (m - length X) with 0 in Hi by lia.
        rewrite take_0 in Hi. by apply elem_of_nil in Hi.
      * rewrite take_ge by lia. rewrite HX, <- HY.
        rewrite <- (take_drop (m - length X) Y), settled_ids_app.
        apply elem_of_app. by left.
    + pose proof (length_outstanding_le
                    (take m X ++ take (m - length X) Y)) as H1.
      rewrite issued_ids_app, HYm, app_nil_r in H1.
      pose proof (length_issued_ids_take m X) as H2.
      rewrite HX, length_seq in H2. lia.
  - intros i. rewrite issued_ids_app, settled_ids_app, HX, HXs, HYi, HY.
    by rewrite app_nil_r.
Qed.

Lemma batches_trace_outstanding n id (bs : list (list jsstring)) :
  Forall (λ b, length b ≤ n) bs →
  outstanding_at_most n (batches_trace rt sourcePhrases to id bs) ∧
  (∀ i, i ∈ issued_ids (batches_trace rt sourcePhrases to id bs) →
        i ∈ settled_ids (batches_trace rt sourcePhrases to id bs)).
Proof.
  intros Hbs. revert id. induction Hbs as [|b bs Hb _ IH]; intros id.
  - split; [apply outstanding_at_most_nil | done].
  - cbn [batches_trace]. rewrite app_assoc.
    destruct (outstanding_at_most_batch n id b Hb) as [H1 H2].
    destruct (IH (id + length b)) as [H3 H4].
    split.
    + apply outstanding_at_most_cons; [done.. |].
      by apply outstanding_at_most_app.
    + intros i.
      assert (∀ e t, issued_id e = None → settled_id e = None →
                issued_ids (e :: t) = issued_ids t ∧
                settled_ids (e :: t) = settled_ids t) as Hcons.
      { intros e t Hi Hs. unfold issued_ids, settled_ids. cbn.
        by rewrite Hi, Hs. }
      destruct (Hcons
        (ConsoleLog (LogBatchesLeft to
           (length (concat (b :: bs)) / TRANSLATION_BATCH_SIZE + 1)))
        ((call_events sourcePhrases to id b
          ++ settle_events (arrival rt (issue rt sourcePhrases to id b)))
         ++ batches_trace rt sourcePhrases to (id + length b) bs)
        eq_refl eq_refl) as [-> ->].
      rewrite (issued_ids_app (_ ++ _)), (settled_ids_app (_ ++ _)).
      rewrite !elem_of_app. intros [Hi | Hi]; [left; by apply H2 |].
      right. by apply H4.
Qed.

Lemma batches_trace_ids id (bs : list (list jsstring)) :
  issued_ids (batches_trace rt sourcePhrases to id bs)
    = seq id (length (concat bs)) ∧
  settled_ids (batches_trace rt sourcePhrases to id bs)
    ≡ₚ seq id (length (concat bs)).
Proof.
  revert id. induction bs as [|b bs IH]; intros id; [done |].
  destruct (IH (id + length b)) as [H1 H2].
  cbn [batches_trace concat]. rewrite length_app, seq_app.
  change (ConsoleLog ?m :: ?t) with ([ConsoleLog m] ++ t).
  rewrite !issued_ids_app, !settled_ids_app.
  rewrite issued_ids_call_events, settled_ids_call_events,
    issued_ids_settle_events, settled_ids_settle_events, H1.
  split; [done |]. cbn [app settled_ids omap settled_id].
  by rewrite H2, (arrival_perm rt), issue_ids.
Qed.

Lemma no_fs_change_call_events id b :
  List.filter is_fs_change (call_events sourcePhrases to id b) = [].
Proof. revert id. induction b as [|k b IH]; intros id; [done | apply IH]. Qed.

Lemma no_fs_change_settle_events ps :
  List.filter is_fs_change (settle_events ps) = [].
Proof.
  induction ps as [|p ps IH]; [done |].
  unfold settle_events in *. cbn. rewrite List.filter_app, IH.
  unfold settle_events1. by destruct (p_answer p).
Qed.

Lemma no_fs_change_batches_trace id (bs : list (list jsstring)) :
  List.filter is_fs_change (batches_trace rt sourcePhrases to id bs) = [].
Proof.
  revert id. induction bs as [|b bs IH]; intros id; [done |].
  cbn [batches_trace List.filter is_fs_change].
  by rewrite !List.filter_app, IH, no_fs_change_call_events,
    no_fs_change_settle_events.
Qed.

Lemma resolve_missing_result o w :
  (resolve_missing rt sourcePhrases to o w).2 =
  Ok (settle o (arrivals rt sourcePhrases to (calls w)
                  (batches (missingPhrases sourcePhrases o)))).
Proof.
  pose proof (resolve_missing_run rt sourcePhrases to o w) as H.
  cbn zeta in H. rewrite H.
  destruct (bool_decide_reflect (missingPhrases sourcePhrases o = []))
    as [-> | _]; done.
Qed.

(** What the translation phase adds to the trace. *)
Lemma resolve_missing_trace o w :
  ∃ evs,
    trace (resolve_missing rt sourcePhrases to o w).1 = trace w ++ evs ∧
    issued_ids evs =
      seq (calls w) (length (missingPhrases sourcePhrases o)) ∧
    settled_ids evs ≡ₚ issued_ids evs ∧
    outstanding_at_most TRANSLATION_BATCH_SIZE evs ∧
    List.filter is_fs_change evs = [].
Proof.
  pose proof (resolve_missing_run rt sourcePhrases to o w) as H.
  cbn zeta in H. rewrite H. clear H.
  set (l := missingPhrases sourcePhrases o).
  destruct (bool_decide_reflect (l = [])) as [-> | _].
  - exists []. cbn. rewrite app_nil_r. split_and!; try done.
    apply outstanding_at_most_nil.
  - eexists. split; [reflexivity |].
    destruct (batches_trace_ids (calls w) (batches l)) as [H1 H2].
    rewrite concat_batches in H1, H2.
    destruct (batches_trace_outstanding TRANSLATION_BATCH_SIZE (calls w)
                (batches l)) as [H3 H4].
    { eapply Forall_impl; [apply batches_sizes |]. cbn. lia. }
    split_and!.
    + change (?e :: ?t) with ([e] ++ t).
      rewrite !issued_ids_app, H1. cbn. by rewrite app_nil_r.
    + change (?e :: ?t) with ([e] ++ t).
      rewrite !issued_ids_app, !settled_ids_app, H1, H2. cbn.
      by rewrite !app_nil_r.
    + apply outstanding_at_most_cons; [done.. |].
      apply outstanding_at_most_app; [done.. |].
      apply outstanding_at_most_cons; [done.. |].
      apply outstanding_at_most_nil.
    + change (?e :: ?t) with ([e] ++ t). rewrite !List.filter_app.
      by rewrite no_fs_change_batches_trace.
Qed.

End BatcherTrace.

(** X7: while the missing phrases are translated, the calls that are
    issued and not yet settled never exceed the batch size, and no call
    settles before it is issued. *)
Theorem X7_bounded_outstanding_calls (rt : runtime)
    (sourcePhrases : jsobject) (to : jsstring) (targetPhrases : jsobject)
    (w : world) :
  ∃ evs,
    trace (resolve_missing rt sourcePhrases to targetPhrases w).1
      = trace w ++ evs ∧
    outstanding_at_most TRANSLATION_BATCH_SIZE evs.
Proof.
  destruct (resolve_missing_trace rt sourcePhrases to targetPhrases w)
    as (evs & H1 & _ & _ & H2 & _).
  by exists evs.
Qed.

(** X9: the translation phase changes no file and no directory: the disk
    is as it was, and no [mkdir] or write is among the events. *)
Theorem X9_translation_phase_no_write (rt : runtime)
    (sourcePhrases : jsobject) (to : jsstring) (targetPhrases : jsobject)
    (w : world) :
  disk (resolve_missing rt sourcePhrases to targetPhrases w).1 = disk w ∧
  ∃ evs,
    trace (resolve_missing rt sourcePhrases to targetPhrases w).1
      = trace w ++ evs ∧
    List.filter is_fs_change evs = [].
Proof.
  split; [apply resolve_missing_disk |].
  destruct (resolve_missing_trace rt sourcePhrases to targetPhrases w)
    as (evs & H1 & _ & _ & _ & H2).
  by exists evs.
Qed.

Lemma batches_left_estimate n len :
  0 < n →
  len / n + 1 =
  (len + (n - 1)) / n + (if decide (len `mod` n = 0) then 1 else 0).
Proof.
  intros Hn. pose proof (Nat.div_mod_eq len n) as Hdm.
  pose proof (Nat.mod_upper_bound len n ltac:(lia)) as Hr.
  set (q := len / n) in *. set (r := len `mod` n) in *.
  case_decide as Hz.
  - rewrite <- (Nat.div_unique (len + (n - 1)) n q (n - 1)); lia.
  - rewrite <- (Nat.div_unique (len + (n - 1)) n (q + 1) (r - 1)); lia.
Qed.

(** X10: the number of batches that the first log line of the loop
    announces is the number of iterations to come when the number of
    missing phrases is no multiple of the batch size, and one more than
    that when it is. *)
Theorem X10_batches_left_overestimate (rt : runtime)
    (sourcePhrases : jsobject) (to : jsstring) (missing : list jsstring)
    (targetPhrases : jsobject) (w : world) :
  missing ≠ [] →
  ∃ rest,
    trace (translation_loop rt (length missing) sourcePhrases to missing
             targetPhrases w).1
    = trace w
      ++ ConsoleLog
           (LogBatchesLeft to
              (length (batches missing)
               + (if decide (length missing `mod` TRANSLATION_BATCH_SIZE = 0)
                  then 1 else 0)))
         :: rest.
Proof.
  intros Hne.
  rewrite translation_loop_run by apply length_batches_le. cbn [fst trace].
  pose proof (batches_cons missing Hne) as Hb.
  pose proof (concat_batches missing) as Hc.
  pose proof (length_batches missing) as Hl.
  destruct (batches missing) as [|b bs]; [done |].
  cbn [batches_trace]. rewrite Hc, Hl.
  rewrite (batches_left_estimate _ _ batch_size_pos). eauto.
Qed.

Lemma X10_batches_left_overestimate_witness :
  ∃ rest,
    trace (translation_loop Scenario.tagging (length [lit "bye"])
             Scenario.source (lit "es") [lit "bye"] [] Scenario.start).1
    = trace Scenario.start
      ++ ConsoleLog
           (LogBatchesLeft (lit "es")
              (length (batches [lit "bye"])
               + (if decide (length [lit "bye"] `mod` TRANSLATION_BATCH_SIZE
                             = 0)
                  then 1 else 0)))
         :: rest.
Proof.
  apply (X10_batches_left_overestimate Scenario.tagging Scenario.source
           (lit "es") [lit "bye"] [] Scenario.start).
  discriminate.
Defined.

(** ** More on the record in memory *)

Section Result.

Context (rt : runtime) (sourcePhrases : jsobject) (to : jsstring).

Implicit Types (w : world) (o : jsobject) (k : jsstring).

Lemma arrivals_keys id l :
  p_key <$> arrivals rt sourcePhrases to id (batches l) ≡ₚ l.
Proof.
  rewrite (arrivals_perm rt sourcePhrases to id (batches l)).
  by rewrite concat_batches, issue_keys.
Qed.

Lemma get_arrivals_other id l o k :
  k ∉ l →
  get (settle o (arrivals rt sourcePhrases to id (batches l))) k = get o k.
Proof. intros Hk. apply get_settle_other. by rewrite arrivals_keys. Qed.

End Result.

(** X11: the translation phase never overwrites an entry: a key that
    the target record has when the phase starts has the same value when
    it ends. *)
Theorem X11_existing_entries_kept (rt : runtime) (sourcePhrases : jsobject)
    (to : jsstring) (targetPhrases : jsobject) (w : world) (k : jsstring) :
  k ∈ keys targetPhrases →
  ∃ targetPhrases',
    (resolve_missing rt sourcePhrases to targetPhrases w).2
      = Ok targetPhrases' ∧
    get targetPhrases' k = get targetPhrases k.
Proof.
  intros Hk. rewrite resolve_missing_result. eexists. split; [done |].
  apply get_arrivals_other. unfold missingPhrases.
  rewrite elem_of_difference. tauto.
Qed.

Lemma X11_existing_entries_kept_witness :
  ∃ targetPhrases',
    (resolve_missing Scenario.tagging Scenario.source (lit "es")
       [(lit "hello", lit "Hola")] Scenario.start).2 = Ok targetPhrases' ∧
    get targetPhrases' (lit "hello") = get [(lit "hello", lit "Hola")] (lit "hello").
Proof.
  apply (X11_existing_entries_kept Scenario.tagging Scenario.source (lit "es")
           [(lit "hello", lit "Hola")] Scenario.start (lit "hello")).
  apply list_elem_of_here.
Defined.

(** X12: the record in memory does not depend on the order in which the
    answers arrive: two runs whose translation service gives the same
    answers end with records that hold the same value under every key. *)
Theorem X12_arrival_order_irrelevant (rt rt' : runtime)
    (sourcePhrases : jsobject) (to : jsstring) (targetPhrases : jsobject)
    (w : world) :
  (∀ id text from to', respond rt id text from to'
                       = respond rt' id text from to') →
  ∃ o o',
    (resolve_missing rt sourcePhrases to targetPhrases w).2 = Ok o ∧
    (resolve_missing rt' sourcePhrases to targetPhrases w).2 = Ok o' ∧
    ∀ k, get o k = get o' k.
Proof.
  intros Hsame. rewrite !resolve_missing_result.
  eexists _, _. split_and!; [done.. |]. intros k.
  pose proof (NoDup_difference (keys sourcePhrases) (keys targetPhrases))
    as Hnd.
  destruct (decide (k ∈ missingPhrases sourcePhrases targetPhrases))
    as [Hk | Hk].
  - apply list_elem_of_lookup_1 in Hk as [i Hi].
    rewrite (get_arrivals rt _ _ _ _ _ i k Hnd Hi).
    rewrite (get_arrivals rt' _ _ _ _ _ i k Hnd Hi).
    by rewrite Hsame.
  - by rewrite !get_arrivals_other.
Qed.

Lemma X12_arrival_order_irrelevant_witness :
  ∃ o o',
    (resolve_missing (fifo (λ _ text _ _, Some text)) Scenario.source
       (lit "es") [] Scenario.start).2 = Ok o ∧
    (resolve_missing (lifo (λ _ text _ _, Some text)) Scenario.source
       (lit "es") [] Scenario.start).2 = Ok o' ∧
    ∀ k, get o k = get o' k.
Proof.
  apply (X12_arrival_order_irrelevant (fifo (λ _ text _ _, Some text))
           (lifo (λ _ text _ _, Some text))).
  reflexivity.
Defined.

(** ** More on the locale store *)

Section Store.

Implicit Types (w : world) (p dir file : jsstring) (c : content).

Lemma only_touches_refl dir file w : only_touches dir file w w.
Proof. unfold only_touches. split_and!; [done.. | set_solver | done | done]. Qed.

Lemma only_touches_trans dir file w1 w2 w3 :
  only_touches dir file w1 w2 → only_touches dir file w2 w3 →
  only_touches dir file w1 w3.
Proof.
  intros (Ha & Hb & Hn & Hc & Hd) (Ha' & Hb' & Hn' & Hc' & Hd'). split_and!.
  - congruence.
  - set_solver.
  - set_solver.
  - intros p Hp. by rewrite Hc', Hc.
  - auto.
Qed.

Lemma only_touches_disk dir file w w' w'' :
  disk w'' = disk w' → only_touches dir file w w' →
  only_touches dir file w w''.
Proof. unfold only_touches. by intros ->. Qed.

Lemma only_touches_same_disk dir file w w' :
  disk w' = disk w → only_touches dir file w w'.
Proof.
  intros E. unfold only_touches. rewrite E.
  split_and!; [done.. | set_solver | done | done].
Qed.

Lemma mkdir_run p w :
  mkdir p w =
  let w1 := logged [FsMkdir p] w in
  if exists_path (disk w) p then (w1, Throw EEXIST)
  else if negb (parent_exists (disk w) p) then (w1, Throw ENOENT)
  else if bool_decide (p ∈ denied (disk w)) then (w1, Throw EACCES)
  else (World (Filesystem ({[p]} ∪ dirs (disk w)) (files (disk w))
                 (denied (disk w))) (calls w) (trace w ++ [FsMkdir p]),
        Ok tt).
Proof.
  unfold mkdir, bind, emit, get_disk, put_disk, throw. cbn.
  by repeat (case_match; try done).
Qed.

Lemma mkdir_only_touches p file w : only_touches p file w (mkdir p w).1.
Proof.
  rewrite mkdir_run. cbn zeta.
  repeat case_match; unfold only_touches; cbn; split_and!; try done;
    set_solver.
Qed.

Lemma store_only_touches dir file c w :
  only_touches dir file w (store file c w).1.
Proof.
  rewrite store_run.
  repeat case_match; unfold only_touches; cbn; split_and!; try done;
    try set_solver.
  - intros p Hp. by rewrite lookup_insert_ne.
  - intros _. rewrite lookup_insert_eq. eauto.
Qed.

Lemma store_Ok file c w w' :
  store file c w = (w', Ok tt) →
  files (disk w') !! file = Some c ∧ dirs (disk w') = dirs (disk w).
Proof.
  rewrite store_run. repeat case_match; try done.
  intros [= <-]. cbn. by rewrite lookup_insert_eq.
Qed.

Lemma ensureLanguageFileExists_only_touches dir file w :
  only_touches dir file w (ensureLanguageFileExists dir file w).1.
Proof.
  rewrite ensureLanguageFileExists_run. cbn zeta.
  set (w1 := logged [FsStat dir] w).
  set (w2 := if exists_path (disk w) dir then w1 else (mkdir dir w1).1).
  assert (only_touches dir file w w2) as H2.
  { subst w2. destruct (exists_path (disk w) dir).
    - by apply only_touches_same_disk.
    - apply (only_touches_trans _ _ _ w1);
        [by apply only_touches_same_disk |].
      apply mkdir_only_touches. }
  destruct (exists_path (disk w2) file);
    [by apply (only_touches_disk _ _ _ w2) |].
  unfold writeFile, bind. rewrite emit_run.
  set (w3 := logged _ (logged _ w2)).
  assert (only_touches dir file w w3) as H3
    by (by apply (only_touches_disk _ _ _ w2)).
  pose proof (store_only_touches dir file (Json []) w3) as H4.
  destruct (store file (Json []) w3) as [w4 [[]|e|]]; cbn [fst] in *;
    by apply (only_touches_trans _ _ _ w3).
Qed.

End Store.

(** X13: [fileExists] turns the rejection of [fs.stat] into [false]: it
    never throws, it answers whether the path exists as a file or as a
    directory, and it leaves the disk alone. *)
Theorem X13_fileExists_never_throws (path : jsstring) (w : world) :
  (fileExists path w).2 = Ok (exists_path (disk w) path) ∧
  disk (fileExists path w).1 = disk w.
Proof. by rewrite fileExists_run. Qed.

Lemma ensureLanguageFileExists_Ok (dir file : jsstring) (w w' : world) :
  ensureLanguageFileExists dir file w = (w', Ok tt) →
  exists_path (disk w') file = true ∧
  (exists_path (disk w) file = false → dir ≠ file →
   files (disk w') !! file = Some (Json [])).
Proof.
  rewrite ensureLanguageFileExists_run. cbn zeta.
  set (w1 := logged [FsStat dir] w).
  set (w2 := if exists_path (disk w) dir then w1 else (mkdir dir w1).1).
  destruct (exists_path (disk w2) file) eqn:Hfile.
  - intros [= <-]. cbn [logged disk]. split; [done |].
    intros Hno Hne. exfalso. revert Hfile. subst w2.
    destruct (exists_path (disk w) dir); [cbn; congruence |].
    rewrite mkdir_run. cbn zeta. subst w1. cbn [logged disk].
    repeat case_match; cbn [fst disk logged]; try congruence.
    unfold exists_path, is_dir, is_file in *. cbn.
    apply orb_false_iff in Hno as [Hd Hf]. rewrite Hf, orb_false_r.
    apply bool_decide_eq_false in Hd.
    rewrite bool_decide_eq_false_2; [done | set_solver].
  - unfold writeFile, bind. rewrite emit_run.
    set (w3 := logged _ (logged _ w2)).
    destruct (store file (Json []) w3) as [w4 [[]|e|]] eqn:Hst; [| done..].
    intros [= <-]. apply store_Ok in Hst as [Hst _]. split; [| done].
    unfold exists_path, is_file. rewrite Hst.
    rewrite (bool_decide_eq_true_2 (is_Some (Some _))) by eauto.
    apply orb_true_r.
Qed.



Lemma only_touches_exists_path dir file w w' p :
  only_touches dir file w w' →
  exists_path (disk w) p = true → exists_path (disk w') p = true.
Proof.
  intros (_ & Hd & _ & Hf & Hs). unfold exists_path, is_dir, is_file.
  intros [H | H]%orb_true_iff; apply orb_true_iff.
  - left. apply bool_decide_eq_true in H. apply bool_decide_eq_true_2.
    set_solver.
  - right. apply bool_decide_eq_true in H. apply bool_decide_eq_true_2.
    destruct (decide (p = file)) as [-> | Hne]; [auto |].
    by rewrite Hf.
Qed.

Lemma mkdir_Ok_is_dir p w w' :
  mkdir p w = (w', Ok tt) → exists_path (disk w') p = true.
Proof.
  rewrite mkdir_run. cbn zeta. repeat case_match; try done.
  intros [= <-]. unfold exists_path, is_dir. cbn.
  rewrite bool_decide_eq_true_2; [done | set_solver].
Qed.

Lemma mkdir_Throw p w w' e :
  mkdir p w = (w', Throw e) →
  disk w' = disk w ∧
  (exists_path (disk w) p = true ∨ parent_exists (disk w) p = false
   ∨ p ∈ denied (disk w)).
Proof.
  rewrite mkdir_run. cbn zeta.
  destruct (exists_path (disk w) p) eqn:E1; [intros [= <- _]; auto |].
  destruct (parent_exists (disk w) p) eqn:E2; cbn [negb];
    [| intros [= <- _]; auto].
  destruct (bool_decide_reflect (p ∈ denied (disk w)));
    [intros [= <- _]; auto | done].
Qed.

(** X15: the ensure step is idempotent: after a run that returned
    normally, a second run returns normally too and changes nothing on
    disk. *)
Theorem X15_ensure_idempotent (dir file : jsstring) (w w1 : world) :
  ensureLanguageFileExists dir file w = (w1, Ok tt) →
  ∃ w2,
    ensureLanguageFileExists dir file w1 = (w2, Ok tt) ∧ disk w2 = disk w1.
Proof.
  intros H.
  pose proof (ensureLanguageFileExists_Ok dir file w w1 H) as [Hfile _].
  pose proof (ensureLanguageFileExists_only_touches dir file w) as Hframe.
  rewrite H in Hframe. cbn [fst] in Hframe.
  rewrite ensureLanguageFileExists_run. cbn zeta.
  set (v1 := logged [FsStat dir] w1).
  set (v2 := if exists_path (disk w1) dir then v1 else (mkdir dir v1).1).
  assert (disk v2 = disk w1) as Hv2.
  { subst v2. destruct (exists_path (disk w1) dir) eqn:Hdir; [done |].
    (* the directory is still absent: the first [mkdir] failed, and the
       second one fails for the same reason *)
    revert H. rewrite ensureLanguageFileExists_run. cbn zeta.
    destruct (exists_path (disk w) dir) eqn:Hdir0.
    { by rewrite (only_touches_exists_path dir file w w1 dir Hframe Hdir0)
        in Hdir. }
    destruct (mkdir dir (logged [FsStat dir] w)) as [u [[]|e|]] eqn:Hmk.
    - apply mkdir_Ok_is_dir in Hmk. cbn [fst]. intros H.
      assert (only_touches dir file u w1) as Hu.
      { destruct (exists_path (disk u) file).
        - injection H as <-. by apply only_touches_same_disk.
        - revert H. unfold writeFile, bind. rewrite emit_run.
          set (u3 := logged _ (logged _ u)).
          pose proof (store_only_touches dir file (Json []) u3) as Hst.
          destruct (store file (Json []) u3) as [u4 [[]|e|]];
            [| done..].
          intros [= <-]. done. }
      by rewrite (only_touches_exists_path dir file u w1 dir Hu Hmk) in Hdir.
    - apply mkdir_Throw in Hmk as [Hu Hwhy]. cbn [fst logged disk] in *.
      intros H.
      assert (dirs (disk w1) = dirs (disk w) ∧
              denied (disk w1) = denied (disk w)) as [Hdirs Hden].
      { destruct (exists_path (disk u) file).
        - injection H as <-. cbn. by rewrite Hu.
        - revert H. unfold writeFile, bind. rewrite emit_run.
          set (u3 := logged _ (logged _ u)).
          pose proof (store_only_touches dir file (Json []) u3) as (Hst & _).
          destruct (store file (Json []) u3) as [u4 [[]|e'|]] eqn:Hs;
            [| done..].
          apply store_Ok in Hs as [_ Hs]. intros [= <-].
          cbn [fst] in Hst. subst u3. cbn [logged disk] in *.
          by rewrite Hs, Hst, Hu. }
      rewrite mkdir_run. cbn zeta. subst v1. cbn [logged disk].
      rewrite Hdir.
      assert (parent_exists (disk w1) dir = parent_exists (disk w) dir) as Hp.
      { unfold parent_exists, is_dir. by rewrite Hdirs. }
      rewrite Hp, Hden.
      destruct Hwhy as [Hw | [-> | Hw]]; [congruence | done |].
      destruct (parent_exists (disk w) dir); [| done]. cbn [negb].
      by rewrite bool_decide_eq_true_2.
    - exfalso. revert Hmk. rewrite mkdir_run. cbn zeta.
      by repeat case_match. }
  rewrite Hv2, Hfile. eexists. split; [done |]. by cbn.
Qed.

Lemma X15_ensure_idempotent_witness :
  ∃ w2,
    ensureLanguageFileExists (lit "public/locales/de")
      (lit "public/locales/de/translation.json")
      (ensureLanguageFileExists (lit "public/locales/de")
         (lit "public/locales/de/translation.json") Scenario.start).1
    = (w2, Ok tt) ∧
    disk w2 =
    disk (ensureLanguageFileExists (lit "public/locales/de")
            (lit "public/locales/de/translation.json") Scenario.start).1.
Proof.
  apply (X15_ensure_idempotent (lit "public/locales/de")
           (lit "public/locales/de/translation.json") Scenario.start).
  vm_compute. reflexivity.
Defined.

(** ** More on one pass *)

Section PassMore.

Context (rt : runtime).

Implicit Types (w : world) (o sourcePhrases targetPhrases : jsobject)
  (file dir sourceFile : jsstring) (l : language).

Lemma delete_removed_only_touches sourcePhrases dir file o w :
  only_touches dir file w (delete_removed sourcePhrases file o w).1.
Proof.
  pose proof (delete_removed_run sourcePhrases file o w) as H.
  cbn zeta in H. rewrite H. clear H.
  destruct (bool_decide _); [| apply only_touches_refl].
  set (w0 := logged _ w).
  pose proof (store_only_touches dir file
    (Json (foldl delete_prop o (deletePhrases sourcePhrases o))) w0) as Hst.
  destruct (store _ _ w0) as [w' [[]|e|]]; cbn [fst] in *;
    (apply (only_touches_trans _ _ _ w0);
     [by apply only_touches_same_disk | done]).
Qed.

(** The file holds the record that the deletion step returns. *)
Lemma delete_removed_file sourcePhrases file o w w' o' :
  files (disk w) !! file = Some (Json o) →
  delete_removed sourcePhrases file o w = (w', Ok o') →
  files (disk w') !! file = Some (Json o').
Proof.
  intros Hfile.
  pose proof (delete_removed_run sourcePhrases file o w) as H.
  cbn zeta in H. rewrite H. clear H.
  destruct (bool_decide_reflect (deletePhrases sourcePhrases o ≠ []))
    as [Hne | He].
  - set (w0 := logged _ w).
    destruct (store _ _ w0) as [w1 [[]|e|]] eqn:Hst; [| done..].
    intros [= <- <-]. by apply store_Ok in Hst as [-> _].
  - intros [= <- <-].
    destruct (deletePhrases sourcePhrases o); [done | by destruct He].
Qed.

Lemma pass_only_touches sourceFile sourcePhrases l w :
  only_touches (targetDir l) (targetFile l sourceFile) w
    (pass rt sourceFile sourcePhrases l w).1.
Proof.
  unfold pass, bind.
  pose proof (ensureLanguageFileExists_only_touches (targetDir l)
                (targetFile l sourceFile) w) as H1.
  destruct (ensureLanguageFileExists _ _ w) as [w1 [[]|e|]]; [| done..].
  cbn [fst] in H1.
  assert (only_touches (targetDir l) (targetFile l sourceFile) w
            (readJSONFile (targetFile l sourceFile) w1).1) as H2.
  { apply (only_touches_disk _ _ _ w1); [| done].
    unfold readJSONFile, Bun_file_json, bind, emit, get_disk, throw. cbn.
    by repeat case_match. }
  destruct (readJSONFile _ w1) as [w2 [o|e|]]; [| done..].
  cbn [fst] in H2.
  pose proof (delete_removed_only_touches sourcePhrases (targetDir l)
                (targetFile l sourceFile) o w2) as H3.
  destruct (delete_removed _ _ o w2) as [w3 [o'|e|]]; cbn [fst] in H3;
    [| by apply (only_touches_trans _ _ _ w2)..].
  apply (only_touches_disk _ _ _ w3); [apply resolve_missing_disk |].
  by apply (only_touches_trans _ _ _ w2).
Qed.

Lemma ensureLanguageFileExists_existing_Ok dir file w :
  is_file (disk w) file = true →
  (ensureLanguageFileExists dir file w).2 = Ok tt.
Proof.
  intros Hfile. rewrite ensureLanguageFileExists_run. cbn zeta.
  set (w1 := logged [FsStat dir] w).
  set (w2 := if exists_path (disk w) dir then w1 else (mkdir dir w1).1).
  assert (files (disk w2) = files (disk w)) as Hf.
  { subst w2. destruct (exists_path (disk w) dir); [done |].
    by destruct (mkdir_trace dir w1) as (_ & _ & ->). }
  assert (exists_path (disk w2) file = true) as ->; [| done].
  unfold exists_path, is_file in *. rewrite Hf, Hfile. apply orb_true_r.
Qed.

Lemma difference_nil_r (l' : list jsstring) : NoDup l' → difference l' [] = l'.
Proof.
  unfold difference. intros Hnd.
  assert (∀ seen, (∀ x, x ∈ l' → x ∉ seen) →
                  difference_from seen l' = l') as H; [| by apply H; set_solver].
  induction Hnd as [|x l' Hx Hnd IH]; intros seen Hseen; [done |].
  cbn. rewrite decide_False by (apply Hseen; left). f_equal.
  apply IH. intros y Hy. rewrite not_elem_of_cons. split.
  - intros ->. done.
  - apply Hseen. by right.
Qed.

End PassMore.

(** X16: whatever its outcome, a pass changes on disk at most its own
    target file and, possibly, creates its target directory: every other
    file is as it was, nothing is removed, and the target file, once
    there, stays there. *)
Theorem X16_pass_touches_only_its_file (rt : runtime) (sourceFile : jsstring)
    (sourcePhrases : jsobject) (l : language) (w : world) :
  only_touches (targetDir l) (targetFile l sourceFile) w
    (pass rt sourceFile sourcePhrases l w).1.
Proof. apply pass_only_touches. Qed.

(** X17: after a pass that completes, the target file holds exactly the
    entries it held after the ensure step whose key is in the source, in
    their order and with their values: stale keys are gone, and no new
    key is written. *)
Theorem X17_persisted_after_pass (rt : runtime) (sourceFile : jsstring)
    (sourcePhrases : jsobject) (l : language) (w w' : world)
    (result : jsobject) :
  pass rt sourceFile sourcePhrases l w = (w', Ok result) →
  ∃ targetPhrases,
    files (disk (ensureLanguageFileExists (targetDir l)
                   (targetFile l sourceFile) w).1)
      !! targetFile l sourceFile = Some (Json targetPhrases) ∧
    files (disk w') !! targetFile l sourceFile =
      Some (Json (List.filter (λ p, bool_decide (p.1 ∈ keys sourcePhrases))
                    targetPhrases)).
Proof.
  intros Hpass.
  apply pass_Ok in Hpass as (w1 & o & w2 & He & Hr & Hd & Hres).
  exists o. rewrite He. split; [done |].
  apply delete_removed_file in Hd; [| done].
  rewrite <- foldl_delete_prop_deletePhrases, <- Hd.
  pose proof (resolve_missing_disk rt sourcePhrases (code l)
                (foldl delete_prop o (deletePhrases sourcePhrases o)) w2) as H.
  rewrite Hres in H. cbn [fst] in H. by rewrite H.
Qed.

Lemma X17_persisted_after_pass_witness :
  ∃ targetPhrases,
    files (disk (ensureLanguageFileExists (targetDir Scenario.es)
                   (targetFile Scenario.es (lit "translation.json"))
                   Scenario.start).1)
      !! targetFile Scenario.es (lit "translation.json")
      = Some (Json targetPhrases) ∧
    files (disk (pass Scenario.tagging (lit "translation.json")
                   Scenario.source Scenario.es Scenario.start).1)
      !! targetFile Scenario.es (lit "translation.json") =
      Some (Json (List.filter
                    (λ p, bool_decide (p.1 ∈ keys Scenario.source))
                    targetPhrases)).
Proof.
  apply (X17_persisted_after_pass Scenario.tagging (lit "translation.json")
           Scenario.source Scenario.es Scenario.start
           (pass Scenario.tagging (lit "translation.json") Scenario.source
              Scenario.es Scenario.start).1
           [(lit "hello", lit "Hola"); (lit "bye", lit "<i>Bye</i>")]).
  vm_compute. reflexivity.
Defined.

(** X18: a target file whose text is not JSON stops the pass at the
    read: the pass throws [SyntaxError], no file is changed and no
    translation is requested. *)
Theorem X18_malformed_target (rt : runtime) (sourceFile : jsstring)
    (sourcePhrases : jsobject) (l : language) (w : world) :
  files (disk w) !! targetFile l sourceFile = Some NotJson →
  let r := pass rt sourceFile sourcePhrases l w in
  r.2 = Throw SyntaxError ∧
  files (disk r.1) = files (disk w) ∧
  translate_calls (trace r.1) = translate_calls (trace w).
Proof.
  intros Hraw. cbn zeta.
  assert (is_file (disk w) (targetFile l sourceFile) = true) as Hfile.
  { unfold is_file. rewrite Hraw. apply bool_decide_eq_true_2. eauto. }
  pose proof (ensureLanguageFileExists_existing_Ok (targetDir l) _ w Hfile)
    as HOk.
  pose proof (ensureLanguageFileExists_existing (targetDir l) _ w Hfile)
    as Hsame.
  pose proof (ensureLanguageFileExists_quiet (targetDir l)
                (targetFile l sourceFile) w) as [_ Hq].
  cbn zeta in Hq. unfold pass, bind.
  destruct (ensureLanguageFileExists _ _ w) as [w1 r1]. cbn [fst snd] in *.
  subst r1. unfold readJSONFile, Bun_file_json, bind, emit, get_disk, throw.
  cbn. rewrite Hsame, Hraw. cbn. split_and!; [done.. |].
  by rewrite translate_calls_app, app_nil_r.
Qed.

Lemma X18_malformed_target_witness :
  (pass Scenario.tagging (lit "auth.json") Scenario.source Scenario.es
     (World (Filesystem {[lit "public/locales/es"]}
               {[lit "public/locales/es/auth.json" := NotJson]} ∅)
        0 [])).2
  = Throw SyntaxError.
Proof.
  refine (proj1 (X18_malformed_target Scenario.tagging (lit "auth.json")
                   Scenario.source Scenario.es _ _)).
  vm_compute. reflexivity.
Defined.

(** X19: when the write of the deletions fails, the failure ends the
    pass: the pass throws the error of the write right after the
    attempt, before any translation is requested, and the disk is as
    the ensure step left it. *)
Theorem X19_deletion_write_failure (rt : runtime) (sourceFile : jsstring)
    (sourcePhrases targetPhrases : jsobject) (l : language) (w w1 : world)
    (e : error) :
  let file := targetFile l sourceFile in
  let deleted := deletePhrases sourcePhrases targetPhrases in
  let kept := foldl delete_prop targetPhrases deleted in
  ensureLanguageFileExists (targetDir l) file w = (w1, Ok tt) →
  files (disk w1) !! file = Some (Json targetPhrases) →
  deleted ≠ [] →
  (store file (Json kept) w1).2 = Throw e →
  pass rt sourceFile sourcePhrases l w =
  (logged [BunFileJson file; ConsoleLog (LogDeleting deleted);
           BunWrite file (Json kept)] w1,
   Throw e).
Proof.
  cbn zeta. intros He Hr Hne Hst. unfold pass, bind.
  rewrite He, (readJSONFile_run _ _ _ Hr).
  pose proof (delete_removed_run sourcePhrases (targetFile l sourceFile)
                targetPhrases
                (logged [BunFileJson (targetFile l sourceFile)] w1)) as H.
  cbn zeta in H. rewrite H. clear H.
  rewrite bool_decide_eq_true_2 by done. rewrite logged_logged. cbn [app].
  set (w0 := logged _ w1).
  rewrite (store_result_disk _ _ w1 w0) in Hst by done.
  pose proof (store_Throw_disk _ _ _ _ Hst) as Hw.
  destruct (store _ _ w0) as [w' r]. cbn [fst snd] in *. by subst.
Qed.

Lemma X19_deletion_write_failure_witness :
  (pass Scenario.tagging (lit "translation.json") Scenario.source Scenario.es
     (World (Filesystem (dirs Scenario.tree) (files Scenario.tree)
               {[lit "public/locales/es/translation.json"]}) 0 [])).2
  = Throw EACCES.
Proof.
  rewrite (X19_deletion_write_failure Scenario.tagging
             (lit "translation.json") Scenario.source Scenario.spanish
             Scenario.es
             (World (Filesystem (dirs Scenario.tree) (files Scenario.tree)
                       {[lit "public/locales/es/translation.json"]}) 0 [])
             (logged [FsStat (lit "public/locales/es");
                      FsStat (lit "public/locales/es/translation.json")]
                (World (Filesystem (dirs Scenario.tree) (files Scenario.tree)
                          {[lit "public/locales/es/translation.json"]}) 0 []))
             EACCES);
    [reflexivity | vm_compute; reflexivity.. | vm_compute; discriminate
     | vm_compute; reflexivity].
Defined.

(** X20: on a target file that holds the empty record, as a file that
    the ensure step has just created does, a pass deletes nothing and
    requests one translation per key of the source, in the order of the
    source file, and completes. *)
Theorem X20_empty_target (rt : runtime) (sourceFile : jsstring)
    (sourcePhrases : jsobject) (l : language) (w w1 : world) :
  ensureLanguageFileExists (targetDir l) (targetFile l sourceFile) w
    = (w1, Ok tt) →
  files (disk w1) !! targetFile l sourceFile = Some (Json []) →
  NoDup (keys sourcePhrases) →
  let r := pass rt sourceFile sourcePhrases l w in
  (∃ result, r.2 = Ok result) ∧
  translate_calls (trace r.1) =
    translate_calls (trace w)
    ++ ((λ key, (or_empty (get sourcePhrases key), lit "en", code l))
          <$> keys sourcePhrases) ∧
  List.filter is_fs_change (drop (length (trace w1)) (trace r.1)) = [].
Proof.
  intros He Hr Hnd. cbn zeta.
  rewrite (pass_steps rt sourceFile sourcePhrases l w w1 []
             (logged [BunFileJson (targetFile l sourceFile)] w1) [] He Hr)
    by done.
  pose proof (ensureLanguageFileExists_quiet (targetDir l)
                (targetFile l sourceFile) w) as [_ Hq].
  cbn zeta in Hq. rewrite He in Hq. cbn [fst] in Hq.
  set (w2 := logged [BunFileJson (targetFile l sourceFile)] w1).
  split_and!.
  - rewrite resolve_missing_result. eauto.
  - pose proof (resolve_missing_run rt sourcePhrases (code l) [] w2) as H.
    cbn zeta in H. rewrite H. clear H.
    unfold missingPhrases. change (keys []) with (@nil (list N)).
    rewrite (difference_nil_r _ Hnd).
    destruct (bool_decide_reflect (keys sourcePhrases = [])) as [E | _].
    + cbn [fst]. subst w2. cbn [logged trace].
      rewrite translate_calls_app, Hq, E. by rewrite !app_nil_r.
    + cbn [fst trace]. subst w2. cbn [logged trace calls].
      rewrite !translate_calls_app, Hq.
      change (translate_calls (?e :: ?t)) with (translate_calls ([e] ++ t)).
      rewrite !translate_calls_app, translate_calls_batches_trace,
        concat_batches.
      cbn. by rewrite !app_nil_r.
  - destruct (resolve_missing_trace rt sourcePhrases (code l) [] w2)
      as (evs & -> & _ & _ & _ & Hno).
    subst w2. cbn [logged trace]. rewrite <- app_assoc, drop_app_length.
    by rewrite List.filter_app, Hno.
Qed.

Lemma X20_empty_target_witness :
  translate_calls
    (trace (pass Scenario.tagging (lit "translation.json") Scenario.source
              (Language (lit "de") (lit "Deutsch") []) Scenario.start).1)
  = [(lit "Hello", lit "en", lit "de"); (lit "Bye", lit "en", lit "de")].
Proof.
  destruct (X20_empty_target Scenario.tagging (lit "translation.json")
              Scenario.source (Language (lit "de") (lit "Deutsch") [])
              Scenario.start
              (ensureLanguageFileExists (lit "public/locales/de")
                 (lit "public/locales/de/translation.json")
                 Scenario.start).1) as (_ & H & _).
  - vm_compute. reflexivity.
  - vm_compute. reflexivity.
  - vm_compute. repeat constructor; set_solver.
  - rewrite H. vm_compute. reflexivity.
Defined.

(** X21: after a pass that completes, the record in memory has no key
    that the source lacks; when the translation service answers every
    call, a key other than [__proto__] is in the record exactly when it
    is in the source. *)
Theorem X21_memory_keys (rt : runtime) (sourceFile : jsstring)
    (sourcePhrases : jsobject) (l : language) (w w' : world)
    (result : jsobject) :
  pass rt sourceFile sourcePhrases l w = (w', Ok result) →
  (∀ k, k ∈ keys result → k ∈ keys sourcePhrases) ∧
  ((∀ id text, is_Some (respond rt id text (lit "en") (code l))) →
   ∀ k, k ≠ PROTO → (k ∈ keys result ↔ k ∈ keys sourcePhrases)).
Proof.
  intros Hpass.
  apply pass_Ok in Hpass as (w1 & o & w2 & He & Hr & Hd & Hres).
  set (o1 := foldl delete_prop o (deletePhrases sourcePhrases o)) in *.
  pose proof (resolve_missing_result rt sourcePhrases (code l) o1 w2) as HR.
  rewrite Hres in HR. cbn [snd] in HR. injection HR as ->.
  pose proof (NoDup_difference (keys sourcePhrases) (keys o1)) as Hnd.
  assert (∀ k, k ∈ keys o1 → k ∈ keys sourcePhrases) as Hkept.
  { intros k Hk. subst o1.
    apply elem_of_keys_foldl_delete_prop in Hk as [Hk Hnot].
    unfold deletePhrases in Hnot. rewrite elem_of_difference in Hnot.
    destruct (decide (k ∈ keys sourcePhrases)); tauto. }
  assert (∀ k, k ∈ missingPhrases sourcePhrases o1 →
               k ∈ keys sourcePhrases) as Hmiss.
  { intros k Hk. unfold missingPhrases in Hk.
    apply elem_of_difference in Hk. tauto. }
  split.
  - intros k Hk. apply get_is_Some in Hk.
    destruct (decide (k ∈ missingPhrases sourcePhrases o1)) as [Hm | Hm];
      [by apply Hmiss |].
    rewrite get_arrivals_other in Hk by done.
    by apply Hkept, get_is_Some.
  - intros Hall k Hproto. rewrite <- get_is_Some.
    destruct (decide (k ∈ missingPhrases sourcePhrases o1)) as [Hm | Hm].
    + split; [intros _; by apply Hmiss | intros _].
      apply list_elem_of_lookup_1 in Hm as [i Hi].
      rewrite (get_arrivals rt _ _ _ _ _ i k Hnd Hi).
      destruct (Hall (calls w2 + i) (or_empty (get sourcePhrases k)))
        as [t ->].
      rewrite decide_True; [eauto | by right].
    + rewrite get_arrivals_other by done. rewrite get_is_Some.
      split; [apply Hkept |]. intros Hk.
      destruct (decide (k ∈ keys o1)) as [|Hno]; [done |].
      destruct Hm. unfold missingPhrases. by apply elem_of_difference.
Qed.

Lemma X21_memory_keys_witness :
  ∃ w' result,
    pass Scenario.tagging (lit "translation.json") Scenario.source
      Scenario.es Scenario.start = (w', Ok result) ∧
    lit "bye" ≠ PROTO ∧
    (lit "bye" ∈ keys result ↔ lit "bye" ∈ keys Scenario.source).
Proof.
  destruct (pass Scenario.tagging (lit "translation.json") Scenario.source
              Scenario.es Scenario.start) as [w' r] eqn:E.
  assert (∃ result, r = Ok result) as [result ->]
    by (revert E; vm_compute; intros [= _ <-]; eauto).
  assert (lit "bye" ≠ PROTO) as Hne by (vm_compute; discriminate).
  exists w', result. split_and!; [done.. |].
  apply (proj2 (X21_memory_keys Scenario.tagging (lit "translation.json")
                  Scenario.source Scenario.es Scenario.start w' result E));
    [intros id text; cbn; eauto | exact Hne].
Defined.
